(** * A Bloom filter over packed 64-bit words: shallow embedding and proofs

    The development follows [src/bloom_filter.cpp] / [src/bloom_filter.h]
    (the filter with the simple double-hashing recurrence) and the [add]
    of [src/src/bloomfilter/bloom_filter.cpp] (the "enhanced" recurrence).

    Conventions.
    - [size_t] and [uint64_t] are 64-bit unsigned integers (LP64); a value
      is a [Z] in [0, 2^64) and every operation that can overflow has its
      wrap-around written out with [u64].
    - [std::vector<uint64_t>] is a [list Z]; [bits_[i]] outside the vector
      is undefined behaviour in C++ and is the outcome [Undefined] here.
    - [double] is an IEEE-754 binary64 value ([spec_float]).
    - [XXH64] (xxhash.h), [std::log] and [std::ceil] (cmath) are not code of
      this repository: they are section variables.  Whether the allocator
      can serve a request is a section variable as well. *)

From Stdlib Require Import ZArith Lia Bool List SpecFloat.
From Stdlib Require Reals.
From Stdlib Require Import Strings.Byte.
From stdpp Require Import base list.

Local Open Scope Z_scope.

(** ** Machine integers *)

Definition SIZE_MAX : Z := 2 ^ 64 - 1.

(** Reduction of a mathematical integer to [uint64_t] / [size_t]. *)
Definition u64 (x : Z) : Z := x mod 2 ^ 64.

Definition is_u64 (x : Z) : Prop := 0 <= x < 2 ^ 64.

(** ** Outcomes of a call *)

Inductive exception : Type :=
  | invalid_argument
  | overflow_error
  | runtime_error.

Inductive result (A : Type) : Type :=
  | Ok (a : A)
  | Throw (e : exception)
  | Undefined.

Arguments Ok {A} a.
Arguments Throw {A} e.
Arguments Undefined {A}.

Definition rbind {A B : Type} (r : result A) (k : A -> result B) : result B :=
  match r with
  | Ok a => k a
  | Throw e => Throw e
  | Undefined => Undefined
  end.

Notation "'do' x <- r ; k" := (rbind r (fun x => k))
  (at level 10, x name, r at level 100, k at level 200).

(** ** The filter object (bloom_filter.h) *)

Record BloomFilter : Type := mkBloomFilter {
  bits_ : list Z;
  num_bits_ : Z;
  num_hashes_ : Z
}.

Definition get_num_bits (f : BloomFilter) : Z := num_bits_ f.
Definition get_num_hashes (f : BloomFilter) : Z := num_hashes_ f.
Definition get_raw_bits_vector (f : BloomFilter) : list Z := bits_ f.

Definition SEED1 : Z := 0x5F0D42B1A956789F.
Definition SEED2 : Z := 0x9B1A75C3E0D6F2A7.

(** [bits_[block_index]] as an rvalue. *)
Definition vec_read (bits : list Z) (block_index : Z) : result Z :=
  match bits !! Z.to_nat block_index with
  | Some w => Ok w
  | None => Undefined
  end.

(** [bits_[block_index] |= mask]. *)
Definition vec_or (bits : list Z) (block_index mask : Z) : result (list Z) :=
  match bits !! Z.to_nat block_index with
  | Some w => Ok (<[Z.to_nat block_index := Z.lor w mask]> bits)
  | None => Undefined
  end.

(** [(num_bits_ + 63) / 64] in [size_t] arithmetic. *)
Definition num_blocks_of (num_bits : Z) : Z := u64 (num_bits + 63) / 64.

(** ** The simple recurrence: src/bloom_filter.cpp *)

Section Filter.

Variable XXH64 : list byte -> Z -> Z.

(** The body of the [for] loop of [add], [rem] iterations left, at
    counter [i]. *)
Fixpoint add_loop (hash1 hash2 num_bits : Z) (rem : nat) (i : Z)
    (bits : list Z) : result (list Z) :=
  match rem with
  | O => Ok bits
  | S rem' =>
      let combined_hash := u64 (hash1 + u64 (i * hash2)) in
      let bit_index := combined_hash mod num_bits in
      let block_index := bit_index / 64 in
      let offset_in_block := bit_index mod 64 in
      do bits' <- vec_or bits block_index (u64 (Z.shiftl 1 offset_in_block));
      add_loop hash1 hash2 num_bits rem' (i + 1) bits'
  end.

Definition add (f : BloomFilter) (data : list byte) : result BloomFilter :=
  if num_bits_ f =? 0 then Ok f
  else
    let hash1 := u64 (XXH64 data SEED1) in
    let hash2 := u64 (XXH64 data SEED2) in
    do bits' <- add_loop hash1 hash2 (num_bits_ f)
                  (Z.to_nat (num_hashes_ f)) 0 (bits_ f);
    Ok (mkBloomFilter bits' (num_bits_ f) (num_hashes_ f)).

Fixpoint might_contain_loop (hash1 hash2 num_bits : Z) (rem : nat) (i : Z)
    (bits : list Z) : result bool :=
  match rem with
  | O => Ok true
  | S rem' =>
      let combined_hash := u64 (hash1 + u64 (i * hash2)) in
      let bit_index := combined_hash mod num_bits in
      let block_index := bit_index / 64 in
      let offset_in_block := bit_index mod 64 in
      do w <- vec_read bits block_index;
      if Z.land (Z.shiftr w offset_in_block) 1 =? 0 then Ok false
      else might_contain_loop hash1 hash2 num_bits rem' (i + 1) bits
  end.

Definition might_contain (f : BloomFilter) (data : list byte) : result bool :=
  if num_bits_ f =? 0 then Ok false
  else
    let hash1 := u64 (XXH64 data SEED1) in
    let hash2 := u64 (XXH64 data SEED2) in
    might_contain_loop hash1 hash2 (num_bits_ f)
      (Z.to_nat (num_hashes_ f)) 0 (bits_ f).

End Filter.

(** ** IEEE-754 binary64 ([double]) *)

Definition double : Type := spec_float.
Definition prec : Z := 53.
Definition emax : Z := 1024.

Definition d_zero : double := S754_zero false.                       (* 0.0 *)
Definition d_one : double := S754_finite false 4503599627370496 (-52). (* 1.0 *)
Definition d_two : double := S754_finite false 4503599627370496 (-51). (* 2.0 *)

Definition d_mul : double -> double -> double := SFmul prec emax.
Definition d_div : double -> double -> double := SFdiv prec emax.
Definition d_neg : double -> double := SFopp.
Definition d_le (x y : double) : bool := SFleb x y.   (* x <= y *)
Definition d_ge (x y : double) : bool := SFleb y x.   (* x >= y *)
Definition d_gt (x y : double) : bool := SFltb y x.   (* x > y *)

(** [static_cast<double>(n)] for a [size_t]: round to nearest, ties to even. *)
Definition double_of_size_t (n : Z) : double := binary_normalize prec emax n 0 false.

(** [static_cast<size_t>(x)]: truncation toward zero; undefined when the
    truncated value is not a [size_t] (so also for NaN and infinities). *)
Definition size_t_of_double (x : double) : result Z :=
  match x with
  | S754_zero _ => Ok 0
  | S754_finite s m e =>
      let magnitude := Z.shiftl (Z.pos m) e in
      if magnitude =? 0 then Ok 0
      else if s then Undefined
      else if magnitude <=? SIZE_MAX then Ok magnitude
      else Undefined
  | S754_infinity _ => Undefined
  | S754_nan => Undefined
  end.

(** ** Construction: src/bloom_filter.cpp *)

Section Construction.

Variable std_log : double -> double.
Variable std_ceil : double -> double.
(** [can_allocate n]: the allocator serves a request for [n] words. *)
Variable can_allocate : Z -> bool.

(** The object before its constructor body runs, for the constructor that
    has no member initializers: [bits_] is the empty vector, the two
    counters are written before they are read. *)
Definition uninitialized : BloomFilter := mkBloomFilter [] 0 0.

Definition calculate_optimal_params (f : BloomFilter) (n : Z) (p : double)
    : result BloomFilter :=
  let n_double := double_of_size_t n in
  let log_p := std_log p in
  let log_2 := std_log d_two in
  let log_2_sq := d_mul log_2 log_2 in
  let m_candidate := d_div (d_neg (d_mul n_double log_p)) log_2_sq in
  if d_gt m_candidate (double_of_size_t SIZE_MAX) then Throw overflow_error
  else
    do m <- size_t_of_double (std_ceil m_candidate);
    let num_bits := Z.max 1 m in
    let k_candidate := d_mul (d_div (double_of_size_t num_bits) n_double) log_2 in
    do k <- size_t_of_double (std_ceil k_candidate);
    let num_hashes := Z.max 1 k in
    let num_hashes := Z.min num_hashes 32 in
    Ok (mkBloomFilter (bits_ f) num_bits num_hashes).

(** [bits_.assign(num_blocks, 0ULL)] under [try]/[catch (std::bad_alloc)];
    assigning zero elements allocates nothing. *)
Definition initialize_bits (f : BloomFilter) : result BloomFilter :=
  let num_blocks := num_blocks_of (num_bits_ f) in
  if (num_blocks =? 0) || can_allocate num_blocks
  then Ok (mkBloomFilter (replicate (Z.to_nat num_blocks) 0)
             (num_bits_ f) (num_hashes_ f))
  else Throw runtime_error.

(** [BloomFilter(size_t estimated_num_items, double false_positive_rate)] *)
Definition BloomFilter_optimal (estimated_num_items : Z)
    (false_positive_rate : double) : result BloomFilter :=
  if estimated_num_items =? 0 then Throw invalid_argument
  else if d_le false_positive_rate d_zero || d_ge false_positive_rate d_one
  then Throw invalid_argument
  else
    do f <- calculate_optimal_params uninitialized estimated_num_items
              false_positive_rate;
    initialize_bits f.

(** [BloomFilter(size_t num_bits, size_t num_hashes)] *)
Definition BloomFilter_explicit (num_bits num_hashes : Z) : result BloomFilter :=
  let f := mkBloomFilter [] num_bits num_hashes in
  if num_bits_ f =? 0 then Throw invalid_argument
  else if num_hashes_ f =? 0 then Throw invalid_argument
  else initialize_bits f.

(** [BloomFilter(size_t num_bits, size_t num_hashes,
                 const std::vector<uint64_t>& bits_data)] *)
Definition BloomFilter_restore (num_bits num_hashes : Z) (bits_data : list Z)
    : result BloomFilter :=
  let f := mkBloomFilter bits_data num_bits num_hashes in
  if (num_bits_ f =? 0) || (num_hashes_ f =? 0) then Throw invalid_argument
  else
    let expected_blocks := num_blocks_of (num_bits_ f) in
    if negb (Z.of_nat (length (bits_ f)) =? expected_blocks)
    then Throw runtime_error
    else Ok f.

End Construction.

(** ** The enhanced recurrence: src/src/bloomfilter/bloom_filter.cpp *)

Module Enhanced.
Section Filter.

Variable XXH64 : list byte -> Z -> Z.

(** The [for] loop of [add]; the loop state is the counter [i] and the two
    accumulators.  [x % num_bits_] with [num_bits_ == 0] is undefined. *)
Fixpoint add_loop (num_bits : Z) (rem : nat) (i : Z)
    (current_probe_hash current_step_val : Z) (bits : list Z)
    : result (list Z) :=
  match rem with
  | O => Ok bits
  | S rem' =>
      let current_step_val := u64 (current_step_val + i) in
      if num_bits =? 0 then Undefined
      else
        let bit_index := current_probe_hash mod num_bits in
        do bits' <- vec_or bits (Z.shiftr bit_index 6)
                      (u64 (Z.shiftl 1 (Z.land bit_index 63)));
        let current_probe_hash := u64 (current_probe_hash + current_step_val) in
        add_loop num_bits rem' (i + 1) current_probe_hash current_step_val bits'
  end.

Definition add (f : BloomFilter) (data : list byte) : result BloomFilter :=
  let h1_initial := u64 (XXH64 data SEED1) in
  let h2_initial := u64 (XXH64 data SEED2) in
  do bits' <- add_loop (num_bits_ f) (Z.to_nat (num_hashes_ f)) 0
                h1_initial h2_initial (bits_ f);
  Ok (mkBloomFilter bits' (num_bits_ f) (num_hashes_ f)).

End Filter.
End Enhanced.

(** ** The index sequence and the bit store, as the specification words them

    The source has no index generator of its own: both loops compute the
    position inline.  The definitions below are the specification's
    "Index Sequence Generator" and "Bit Array Store"; the refinement
    lemmas relate the loops of the source to them. *)

(** [index_i = (h1 + i * h2) mod num_bits], arithmetic modulo 2^64. *)
Definition canonical_index (h1 h2 num_bits : Z) (i : nat) : Z :=
  ((h1 + Z.of_nat i * h2) mod 2 ^ 64) mod num_bits.

Definition canonical_indices_from (h1 h2 num_bits : Z) (start k : nat) : list Z :=
  map (canonical_index h1 h2 num_bits) (seq start k).

Definition canonical_indices (h1 h2 num_bits : Z) (k : nat) : list Z :=
  canonical_indices_from h1 h2 num_bits 0 k.

(** [set(bit_index)] and [test(bit_index)] of the store. *)
Definition set_bit (bits : list Z) (bit_index : Z) : result (list Z) :=
  vec_or bits (bit_index / 64) (u64 (Z.shiftl 1 (bit_index mod 64))).

Definition test_bit (bits : list Z) (bit_index : Z) : result bool :=
  do w <- vec_read bits (bit_index / 64);
  Ok (negb (Z.land (Z.shiftr w (bit_index mod 64)) 1 =? 0)).

Fixpoint set_all (bits : list Z) (idxs : list Z) : result (list Z) :=
  match idxs with
  | [] => Ok bits
  | j :: rest => do bits' <- set_bit bits j; set_all bits' rest
  end.

(** Tests in order, stops at the first unset bit. *)
Fixpoint test_all (bits : list Z) (idxs : list Z) : result bool :=
  match idxs with
  | [] => Ok true
  | j :: rest =>
      do b <- test_bit bits j;
      if b then test_all bits rest else Ok false
  end.

(** Mathematical ceiling of [n / 64]. *)
Definition ceil_div64 (n : Z) : Z := - ((- n) / 64).

(** The data-model invariant of a filter. *)
Definition wf (f : BloomFilter) : Prop :=
  1 <= num_bits_ f /\
  1 <= num_hashes_ f /\
  Z.of_nat (length (bits_ f)) = ceil_div64 (num_bits_ f).

(** Bit [j] of the packed array is stored and set. *)
Definition bit_is_set (bits : list Z) (j : Z) : Prop :=
  exists w, bits !! Z.to_nat (j / 64) = Some w /\ Z.testbit w (j mod 64) = true.

(** [bits'] has every bit that [bits] has: bits only go from 0 to 1. *)
Definition bits_le (bits bits' : list Z) : Prop :=
  length bits = length bits' /\
  forall n w, bits !! n = Some w ->
    exists w', bits' !! n = Some w' /\
      forall p, Z.testbit w p = true -> Z.testbit w' p = true.

(** A sequence of [add] calls. *)
Fixpoint add_all (XXH64 : list byte -> Z -> Z) (f : BloomFilter)
    (items : list (list byte)) : result BloomFilter :=
  match items with
  | [] => Ok f
  | x :: rest => do f' <- add XXH64 f x; add_all XXH64 f' rest
  end.

(** The states a filter object can be in: built by one of the three
    constructors from arguments of their types, then mutated by [add]. *)
Inductive reachable (XXH64 : list byte -> Z -> Z)
    (std_log std_ceil : double -> double) (can_allocate : Z -> bool)
    : BloomFilter -> Prop :=
  | reach_optimal (n : Z) (p : double) (f : BloomFilter) :
      is_u64 n ->
      BloomFilter_optimal std_log std_ceil can_allocate n p = Ok f ->
      reachable XXH64 std_log std_ceil can_allocate f
  | reach_explicit (m k : Z) (f : BloomFilter) :
      is_u64 m -> is_u64 k ->
      BloomFilter_explicit can_allocate m k = Ok f ->
      reachable XXH64 std_log std_ceil can_allocate f
  | reach_restore (m k : Z) (words : list Z) (f : BloomFilter) :
      is_u64 m -> is_u64 k -> Forall is_u64 words ->
      BloomFilter_restore m k words = Ok f ->
      reachable XXH64 std_log std_ceil can_allocate f
  | reach_add (f f' : BloomFilter) (x : list byte) :
      reachable XXH64 std_log std_ceil can_allocate f ->
      add XXH64 f x = Ok f' ->
      reachable XXH64 std_log std_ceil can_allocate f'.

(** What every constructor establishes and [add] keeps: the word count
    agrees with the block count as the source computes it. *)
Definition consistent (f : BloomFilter) : Prop :=
  num_bits_ f <> 0 /\ num_hashes_ f <> 0 /\
  Z.of_nat (length (bits_ f)) = num_blocks_of (num_bits_ f).

(** Stand-ins for the environment, used to run the model on concrete
    inputs: a hash that depends on the content and on the seed, an
    allocator that never fails. *)
Definition sample_hash (data : list byte) (seed : Z) : Z :=
  fold_left (fun h b => 31 * h + Z.of_N (Byte.to_N b)) data seed.

Definition always_allocates (n : Z) : bool := true.

Definition identity_on_double (x : double) : double := x.

(** The enhanced recurrence as the specification words it: the step
    accumulates [i] in each iteration, the probe accumulates the step, the
    position is the probe before its update, modulo [num_bits]. *)
Fixpoint enhanced_indices_from (num_bits : Z) (rem : nat) (i probe step : Z)
    : list Z :=
  match rem with
  | O => []
  | S rem' =>
      let step' := (step + i) mod 2 ^ 64 in
      probe mod num_bits
        :: enhanced_indices_from num_bits rem' (i + 1)
             ((probe + step') mod 2 ^ 64) step'
  end.

Definition enhanced_indices (h1 h2 num_bits : Z) (k : nat) : list Z :=
  enhanced_indices_from num_bits k 0 (h1 mod 2 ^ 64) (h2 mod 2 ^ 64).

(** Every element of [l1] occurs in [l2]. *)
Definition subset_b (l1 l2 : list Z) : bool :=
  forallb (fun j => existsb (Z.eqb j) l2) l1.

(** The two lists hold the same set of positions. *)
Definition same_positions (l1 l2 : list Z) : Prop :=
  forall j : Z, In j l1 <-> In j l2.

(** Stand-ins for cmath, used to run the parameter computation on one
    input: the exact ceiling, the double [0.01], and the doubles
    [-0x1.26bb1bbb55515p+2] and [0x1.62e42fefa39efp-1] that a double
    precision logarithm returns for [0.01] and for [2.0]. *)
Definition d_ceil (x : double) : double :=
  match x with
  | S754_finite s m e =>
      if 0 <=? e then x
      else
        let q := Z.shiftl (Z.pos m) e in
        if s then binary_normalize prec emax (- q) 0 true
        else if Z.shiftl q (- e) =? Z.pos m
             then binary_normalize prec emax q 0 false
             else binary_normalize prec emax (q + 1) 0 false
  | _ => x
  end.

Definition d_0_01 : double := S754_finite false 5764607523034235 (-59).
Definition ln_0_01 : double := S754_finite true 5184960683398421 (-50).
Definition ln_2 : double := S754_finite false 6243314768165359 (-53).

(** A value that a [double] variable can hold. *)
Definition valid_double (p : double) : Prop := valid_binary prec emax p = true.

(** The value [m * 2^e] of [p] lies strictly between 0 and 1. *)
Definition in_open_unit_interval (p : double) : Prop :=
  match p with
  | S754_finite false m e => e < 0 /\ Z.pos m < 2 ^ (- e)
  | _ => False
  end.

(** ** The bit-level view of a filter *)

(** Bit [j] of the packed array; a position beyond the stored words reads
    as unset. *)
Definition get_bit (bits : list Z) (j : Z) : bool :=
  match bits !! Z.to_nat (j / 64) with
  | Some w => Z.testbit w (j mod 64)
  | None => false
  end.

(** The positions probed for [x] in [f] by src/bloom_filter.cpp. *)
Definition positions (XXH64 : list byte -> Z -> Z) (f : BloomFilter)
    (x : list byte) : list Z :=
  canonical_indices (XXH64 x SEED1) (XXH64 x SEED2)
    (num_bits_ f) (Z.to_nat (num_hashes_ f)).

(** Some position of [idxs] addresses bit [p] of word [n]. *)
Definition hits (idxs : list Z) (n : nat) (p : Z) : bool :=
  existsb (fun j => Nat.eqb (Z.to_nat (j / 64)) n && (j mod 64 =? p)) idxs.

(** The states of a filter that was never restored: built by the optimal
    or by the explicit constructor, then mutated by [add]. *)
Inductive built (XXH64 : list byte -> Z -> Z)
    (std_log std_ceil : double -> double) (can_allocate : Z -> bool)
    : BloomFilter -> Prop :=
  | built_optimal (n : Z) (p : double) (f : BloomFilter) :
      is_u64 n ->
      BloomFilter_optimal std_log std_ceil can_allocate n p = Ok f ->
      built XXH64 std_log std_ceil can_allocate f
  | built_explicit (m k : Z) (f : BloomFilter) :
      is_u64 m -> is_u64 k ->
      BloomFilter_explicit can_allocate m k = Ok f ->
      built XXH64 std_log std_ceil can_allocate f
  | built_add (f f' : BloomFilter) (x : list byte) :
      built XXH64 std_log std_ceil can_allocate f ->
      add XXH64 f x = Ok f' ->
      built XXH64 std_log std_ceil can_allocate f'.

(** A logarithm defined on the two arguments of one run. *)
Definition sample_log (x : double) : double :=
  if SFeqb x d_0_01 then ln_0_01
  else if SFeqb x d_two then ln_2
  else S754_nan.

(** ** The rest of src/src/bloomfilter/bloom_filter.cpp *)

Definition triangular (i : Z) : Z := i * (i + 1) / 2.
Definition tetrahedral (i : Z) : Z := (i - 1) * i * (i + 1) / 6.

(** The closed form of the enhanced recurrence. *)
Definition enhanced_index (h1 h2 num_bits : Z) (i : nat) : Z :=
  ((h1 + Z.of_nat i * h2 + tetrahedral (Z.of_nat i)) mod 2 ^ 64) mod num_bits.

Module Bloomfilter.
Section Filter.

Variable XXH64 : list byte -> Z -> Z.
Variable std_log : double -> double.
Variable std_ceil : double -> double.

(** The [for] loop of [might_contain]. *)
Fixpoint might_contain_loop (num_bits : Z) (rem : nat) (i : Z)
    (current_probe_hash current_step_val : Z) (bits : list Z) : result bool :=
  match rem with
  | O => Ok true
  | S rem' =>
      let current_step_val := u64 (current_step_val + i) in
      if num_bits =? 0 then Undefined
      else
        let bit_index := current_probe_hash mod num_bits in
        let block_index := Z.shiftr bit_index 6 in
        let bit_offset := Z.land bit_index 63 in
        do w <- vec_read bits block_index;
        if Z.land w (u64 (Z.shiftl 1 bit_offset)) =? 0 then Ok false
        else
          let current_probe_hash := u64 (current_probe_hash + current_step_val) in
          might_contain_loop num_bits rem' (i + 1)
            current_probe_hash current_step_val bits
  end.

Definition might_contain (f : BloomFilter) (data : list byte) : result bool :=
  let h1_initial := u64 (XXH64 data SEED1) in
  let h2_initial := u64 (XXH64 data SEED2) in
  might_contain_loop (num_bits_ f) (Z.to_nat (num_hashes_ f)) 0
    h1_initial h2_initial (bits_ f).

(** A sequence of [add] calls of this variant. *)
Fixpoint add_all (f : BloomFilter) (items : list (list byte))
    : result BloomFilter :=
  match items with
  | [] => Ok f
  | x :: rest => do f' <- Enhanced.add XXH64 f x; add_all f' rest
  end.

(** [BloomFilter(size_t, size_t, const std::vector<uint64_t>&)]: one guard,
    one exception type. *)
Definition BloomFilter_restore (num_bits num_hashes : Z) (bits_data : list Z)
    : result BloomFilter :=
  let f := mkBloomFilter bits_data num_bits num_hashes in
  if (num_bits_ f =? 0) || (num_hashes_ f =? 0)
     || negb (Z.of_nat (length bits_data) =? num_blocks_of (num_bits_ f))
  then Throw invalid_argument
  else Ok f.

(** [0.480453013918201] and [0.693147180559945] as doubles. *)
Definition LN2_SQUARED : double := S754_finite false 8655072057804167 (-54).
Definition LN2 : double := S754_finite false 6243314768165356 (-53).

(** [std::clamp<size_t>(v, lo, hi)] *)
Definition clamp (v lo hi : Z) : Z :=
  if v <? lo then lo else if hi <? v then hi else v.

Definition calculate_optimal_params (f : BloomFilter) (n : Z) (p : double)
    : result BloomFilter :=
  let m_bits := d_div (d_mul (d_neg (double_of_size_t n)) (std_log p)) LN2_SQUARED in
  if d_gt m_bits (double_of_size_t SIZE_MAX) then Throw overflow_error
  else
    do m <- size_t_of_double (std_ceil m_bits);
    let num_bits := Z.max 1 m in
    let k_hashes := d_mul (d_div (double_of_size_t num_bits) (double_of_size_t n)) LN2 in
    do k <- size_t_of_double (std_ceil k_hashes);
    let num_hashes := clamp k 1 16 in
    Ok (mkBloomFilter (bits_ f) num_bits num_hashes).

End Filter.
End Bloomfilter.

(** The positions probed for [x] in [f] by the enhanced variant. *)
Definition enhanced_positions (XXH64 : list byte -> Z -> Z) (f : BloomFilter)
    (x : list byte) : list Z :=
  enhanced_indices (XXH64 x SEED1) (XXH64 x SEED2)
    (num_bits_ f) (Z.to_nat (num_hashes_ f)).

(** ** The parameter formulas over the real numbers

    The formulas as the specification writes them, with the real
    logarithm and the real ceiling.  Reals is loaded without its
    notations; the operations are written out. *)






(** The double [0.3825462] and the double [-0x1.ebfbd9f55daf8p-1] that a
    double precision logarithm returns for it; a logarithm defined on the
    arguments of two runs. *)
Definition d_0_3825462 : double := S754_finite false 6891339695087997 (-54).
Definition ln_0_3825462 : double := S754_finite true 8655070444247800 (-53).

Definition table_log (x : double) : double :=
  if SFeqb x d_0_01 then ln_0_01
  else if SFeqb x d_0_3825462 then ln_0_3825462
  else if SFeqb x d_two then ln_2
  else S754_nan.

(** ** Arithmetic of the machine integers *)

Lemma ceil_div64_spec (n : Z) :
  64 * (ceil_div64 n - 1) < n <= 64 * ceil_div64 n.
Proof.
  unfold ceil_div64.
  pose proof (Z.div_mod (- n) 64 ltac:(lia)) as E.
  pose proof (Z.mod_pos_bound (- n) 64 ltac:(lia)) as B.
  lia.
Qed.

Lemma ceil_div64_plus63 (n : Z) : ceil_div64 n = (n + 63) / 64.
Proof.
  pose proof (ceil_div64_spec n) as S.
  apply Z.div_unique with (r := n + 63 - 64 * ceil_div64 n); lia.
Qed.

Lemma num_blocks_of_no_wrap (n : Z) :
  0 <= n <= 2 ^ 64 - 64 -> num_blocks_of n = ceil_div64 n.
Proof.
  intros H. unfold num_blocks_of, u64.
  rewrite Z.mod_small by lia. symmetry. apply ceil_div64_plus63.
Qed.

Lemma num_blocks_of_wrap (n : Z) :
  2 ^ 64 - 64 < n < 2 ^ 64 -> num_blocks_of n = 0.
Proof.
  intros H. unfold num_blocks_of, u64.
  replace ((n + 63) mod 2 ^ 64) with (n + 63 - 2 ^ 64).
  - apply Z.div_small. lia.
  - apply Z.mod_unique with (q := 1); lia.
Qed.

Lemma u64_add_mul (h1 h2 i : Z) :
  u64 (h1 + u64 (i * h2)) = (h1 + i * h2) mod 2 ^ 64.
Proof. unfold u64. apply Zplus_mod_idemp_r. Qed.

Lemma u64_range (x : Z) : is_u64 (u64 x).
Proof. unfold is_u64, u64. apply Z.mod_pos_bound. lia. Qed.

Lemma u64_bit (o : Z) : 0 <= o < 64 -> u64 (Z.shiftl 1 o) = 2 ^ o.
Proof.
  intros H. unfold u64. rewrite Z.shiftl_1_l.
  apply Z.mod_small. split; [lia |]. apply Z.pow_lt_mono_r; lia.
Qed.

Lemma canonical_index_range (h1 h2 m : Z) (i : nat) :
  1 <= m -> 0 <= canonical_index h1 h2 m i < m.
Proof. intros H. unfold canonical_index. apply Z.mod_pos_bound. lia. Qed.

Lemma block_in_range (m j : Z) (bits : list Z) :
  Z.of_nat (length bits) = ceil_div64 m -> 0 <= j < m ->
  (Z.to_nat (j / 64) < length bits)%nat.
Proof.
  intros L H. pose proof (ceil_div64_spec m) as S.
  assert (0 <= j / 64) by (apply Z.div_pos; lia).
  assert (j / 64 < ceil_div64 m) by (apply Z.div_lt_upper_bound; lia).
  lia.
Qed.

(** ** The bit store *)

Lemma land_shiftr_1 (w o : Z) :
  0 <= o -> (Z.land (Z.shiftr w o) 1 =? 0) = negb (Z.testbit w o).
Proof.
  intros Ho.
  change 1 with (Z.ones 1) at 1.
  rewrite Z.land_ones by lia. change (2 ^ 1) with 2.
  rewrite <- Z.bit0_mod, Z.shiftr_spec by lia. rewrite Z.add_0_l.
  destruct (Z.testbit w o); reflexivity.
Qed.

Lemma test_bit_lookup (bits : list Z) (j w : Z) :
  bits !! Z.to_nat (j / 64) = Some w ->
  test_bit bits j = Ok (Z.testbit w (j mod 64)).
Proof.
  intros L. unfold test_bit, vec_read. rewrite L. simpl.
  rewrite land_shiftr_1 by (apply Z.mod_pos_bound; lia).
  now rewrite negb_involutive.
Qed.

Lemma test_bit_true (bits : list Z) (j : Z) :
  test_bit bits j = Ok true <-> bit_is_set bits j.
Proof.
  split.
  - intros T. unfold bit_is_set.
    destruct (bits !! Z.to_nat (j / 64)) as [w|] eqn:L.
    + rewrite (test_bit_lookup _ _ _ L) in T. exists w. split; congruence.
    + unfold test_bit, vec_read in T. rewrite L in T. discriminate.
  - intros (w & L & B). rewrite (test_bit_lookup _ _ _ L). now rewrite B.
Qed.

Lemma bits_le_refl (bits : list Z) : bits_le bits bits.
Proof. split; [reflexivity |]. intros n w L. exists w. auto. Qed.

Lemma bits_le_trans (a b c : list Z) : bits_le a b -> bits_le b c -> bits_le a c.
Proof.
  intros [L1 H1] [L2 H2]. split; [congruence |].
  intros n w L. destruct (H1 n w L) as (w' & L' & M').
  destruct (H2 n w' L') as (w'' & L'' & M''). exists w''. auto.
Qed.

Lemma bit_is_set_mono (a b : list Z) (j : Z) :
  bits_le a b -> bit_is_set a j -> bit_is_set b j.
Proof.
  intros [_ H] (w & L & B). destruct (H _ _ L) as (w' & L' & M).
  exists w'. auto.
Qed.

Lemma set_bit_in_range (bits : list Z) (j : Z) :
  (Z.to_nat (j / 64) < length bits)%nat ->
  exists bits', set_bit bits j = Ok bits' /\ bits_le bits bits' /\ bit_is_set bits' j.
Proof.
  intros R. unfold set_bit, vec_or.
  destruct (lookup_lt_is_Some_2 bits _ R) as [w L]. rewrite L.
  pose proof (Z.mod_pos_bound j 64 ltac:(lia)) as Ho.
  rewrite u64_bit by exact Ho.
  eexists. split; [reflexivity |]. split.
  - split; [now rewrite length_insert |].
    intros n v Ln. destruct (decide (n = Z.to_nat (j / 64))) as [->|Ne].
    + rewrite list_lookup_insert_eq by exact R.
      eexists. split; [reflexivity |]. intros p Hp.
      rewrite Z.lor_spec. replace v with w in Hp by congruence.
      now rewrite Hp.
    + rewrite list_lookup_insert_ne by congruence. exists v. auto.
  - exists (Z.lor w (2 ^ (j mod 64))). split.
    + now apply list_lookup_insert_eq.
    + rewrite Z.lor_spec, Z.pow2_bits_true by lia. apply orb_true_r.
Qed.

Lemma set_bit_out_of_range (bits : list Z) (j : Z) :
  (length bits <= Z.to_nat (j / 64))%nat -> set_bit bits j = Undefined.
Proof.
  intros R. unfold set_bit, vec_or. now rewrite (lookup_ge_None_2 bits _ R).
Qed.

Lemma test_bit_out_of_range (bits : list Z) (j : Z) :
  (length bits <= Z.to_nat (j / 64))%nat -> test_bit bits j = Undefined.
Proof.
  intros R. unfold test_bit, vec_read. now rewrite (lookup_ge_None_2 bits _ R).
Qed.

Lemma set_all_in_range (idxs : list Z) : forall bits : list Z,
  Forall (fun j => (Z.to_nat (j / 64) < length bits)%nat) idxs ->
  exists bits', set_all bits idxs = Ok bits' /\ bits_le bits bits' /\
                Forall (bit_is_set bits') idxs.
Proof.
  induction idxs as [|j rest IH]; intros bits R; simpl.
  - exists bits. split; [reflexivity |]. split; [apply bits_le_refl | constructor].
  - inversion R as [|? ? Rj Rrest]; subst.
    destruct (set_bit_in_range bits j Rj) as (b1 & E1 & Le1 & S1). rewrite E1. simpl.
    destruct (IH b1) as (b2 & E2 & Le2 & S2).
    { destruct Le1 as [Len _]. rewrite <- Len. exact Rrest. }
    exists b2. split; [exact E2 |]. split; [eapply bits_le_trans; eauto |].
    constructor; [eapply bit_is_set_mono; eauto | exact S2].
Qed.

Lemma test_all_true (bits idxs : list Z) :
  test_all bits idxs = Ok true <-> Forall (bit_is_set bits) idxs.
Proof.
  induction idxs as [|j rest IH]; simpl.
  - split; [constructor | reflexivity].
  - split.
    + intros T. destruct (test_bit bits j) as [[|]| |] eqn:E; simpl in T; try discriminate.
      constructor; [now apply test_bit_true | now apply IH].
    + intros F. inversion F as [|? ? Fj Frest]; subst.
      apply test_bit_true in Fj. rewrite Fj. simpl. now apply IH.
Qed.

(** ** The loops of the source against the index sequence *)

Lemma add_loop_refines (rem : nat) : forall (h1 h2 m : Z) (i : nat) (bits : list Z),
  add_loop h1 h2 m rem (Z.of_nat i) bits
  = set_all bits (canonical_indices_from h1 h2 m i rem).
Proof.
  induction rem as [|rem IH]; intros h1 h2 m i bits; [reflexivity |].
  unfold canonical_indices_from. simpl. rewrite u64_add_mul.
  unfold set_bit, canonical_index.
  destruct (vec_or bits _ _) as [b| |]; simpl; try reflexivity.
  replace (Z.of_nat i + 1) with (Z.of_nat (S i)) by lia. apply IH.
Qed.

Lemma might_contain_loop_refines (rem : nat) :
  forall (h1 h2 m : Z) (i : nat) (bits : list Z),
  might_contain_loop h1 h2 m rem (Z.of_nat i) bits
  = test_all bits (canonical_indices_from h1 h2 m i rem).
Proof.
  induction rem as [|rem IH]; intros h1 h2 m i bits; [reflexivity |].
  unfold canonical_indices_from. simpl. rewrite u64_add_mul.
  unfold test_bit, canonical_index.
  destruct (vec_read bits _) as [w| |]; simpl; try reflexivity.
  destruct (Z.land _ 1 =? 0); simpl; [reflexivity |].
  replace (Z.of_nat i + 1) with (Z.of_nat (S i)) by lia. apply IH.
Qed.

(** ** [add] and [might_contain] *)

Lemma canonical_index_u64 (h1 h2 m : Z) (i : nat) :
  canonical_index (u64 h1) (u64 h2) m i = canonical_index h1 h2 m i.
Proof.
  unfold canonical_index, u64. f_equal.
  rewrite (Zplus_mod (h1 mod 2 ^ 64)), Zmod_mod, Zmult_mod_idemp_r.
  now rewrite <- Zplus_mod.
Qed.

Lemma canonical_indices_u64 (h1 h2 m : Z) (k : nat) :
  canonical_indices (u64 h1) (u64 h2) m k = canonical_indices h1 h2 m k.
Proof.
  unfold canonical_indices, canonical_indices_from.
  apply map_ext. intros i. apply canonical_index_u64.
Qed.

Lemma add_refines (XXH64 : list byte -> Z -> Z) (f : BloomFilter) (data : list byte) :
  num_bits_ f <> 0 ->
  add XXH64 f data =
    do bits' <- set_all (bits_ f)
                  (canonical_indices (XXH64 data SEED1) (XXH64 data SEED2)
                     (num_bits_ f) (Z.to_nat (num_hashes_ f)));
    Ok (mkBloomFilter bits' (num_bits_ f) (num_hashes_ f)).
Proof.
  intros Hm. unfold add. apply Z.eqb_neq in Hm. rewrite Hm.
  change 0 with (Z.of_nat 0) at 1. rewrite add_loop_refines.
  fold (canonical_indices (u64 (XXH64 data SEED1)) (u64 (XXH64 data SEED2))
          (num_bits_ f) (Z.to_nat (num_hashes_ f))).
  now rewrite canonical_indices_u64.
Qed.

Lemma might_contain_refines (XXH64 : list byte -> Z -> Z) (f : BloomFilter)
    (data : list byte) :
  num_bits_ f <> 0 ->
  might_contain XXH64 f data =
    test_all (bits_ f)
      (canonical_indices (XXH64 data SEED1) (XXH64 data SEED2)
         (num_bits_ f) (Z.to_nat (num_hashes_ f))).
Proof.
  intros Hm. unfold might_contain. apply Z.eqb_neq in Hm. rewrite Hm.
  change 0 with (Z.of_nat 0) at 1. rewrite might_contain_loop_refines.
  fold (canonical_indices (u64 (XXH64 data SEED1)) (u64 (XXH64 data SEED2))
          (num_bits_ f) (Z.to_nat (num_hashes_ f))).
  now rewrite canonical_indices_u64.
Qed.

Lemma canonical_indices_range (h1 h2 m : Z) (k : nat) :
  1 <= m -> Forall (fun j => 0 <= j < m) (canonical_indices h1 h2 m k).
Proof.
  intros Hm. unfold canonical_indices, canonical_indices_from.
  apply Forall_map, Forall_forall. intros i _. now apply canonical_index_range.
Qed.

Lemma canonical_indices_blocks (h1 h2 m : Z) (k : nat) (bits : list Z) :
  1 <= m -> Z.of_nat (length bits) = ceil_div64 m ->
  Forall (fun j => (Z.to_nat (j / 64) < length bits)%nat)
    (canonical_indices h1 h2 m k).
Proof.
  intros Hm L. eapply Forall_impl; [apply canonical_indices_range; exact Hm |].
  intros j Hj. simpl. eapply block_in_range; eauto.
Qed.

Lemma test_all_total (bits idxs : list Z) :
  Forall (fun j => (Z.to_nat (j / 64) < length bits)%nat) idxs ->
  exists b, test_all bits idxs = Ok b.
Proof.
  induction 1 as [|j rest Rj _ IH]; simpl; [now exists true |].
  destruct (lookup_lt_is_Some_2 bits _ Rj) as [w L].
  rewrite (test_bit_lookup _ _ _ L). simpl.
  destruct (Z.testbit w (j mod 64)); [exact IH | now exists false].
Qed.

(** One [add] on a well-formed filter: it returns, keeps the invariant and
    the two counters, only sets bits, and the item is then reported. *)
Lemma add_wf (XXH64 : list byte -> Z -> Z) (f : BloomFilter) (x : list byte) :
  wf f ->
  exists f', add XXH64 f x = Ok f' /\ wf f' /\
    num_bits_ f' = num_bits_ f /\ num_hashes_ f' = num_hashes_ f /\
    bits_le (bits_ f) (bits_ f') /\
    might_contain XXH64 f' x = Ok true.
Proof.
  intros (Hm & Hk & HL).
  rewrite add_refines by lia.
  destruct (set_all_in_range _ (bits_ f)
              (canonical_indices_blocks (XXH64 x SEED1) (XXH64 x SEED2) _
                 (Z.to_nat (num_hashes_ f)) _ Hm HL)) as (b & E & Le & S).
  rewrite E. simpl. eexists. split; [reflexivity |].
  repeat split; simpl; try assumption; try apply Le.
  - destruct Le as [Len _]. now rewrite <- Len.
  - rewrite might_contain_refines by (simpl; lia). simpl.
    now apply test_all_true.
Qed.

Lemma might_contain_mono (XXH64 : list byte -> Z -> Z) (f f' : BloomFilter)
    (x : list byte) :
  num_bits_ f' = num_bits_ f -> num_hashes_ f' = num_hashes_ f ->
  bits_le (bits_ f) (bits_ f') ->
  might_contain XXH64 f x = Ok true -> might_contain XXH64 f' x = Ok true.
Proof.
  intros Em Ek Le T.
  destruct (Z.eq_dec (num_bits_ f) 0) as [Z0|NZ].
  - unfold might_contain in T. rewrite Z0 in T. discriminate.
  - rewrite might_contain_refines in * by congruence.
    rewrite Em, Ek. apply test_all_true. apply test_all_true in T.
    eapply Forall_impl; [exact T |]. intros j. now apply bit_is_set_mono.
Qed.

Lemma add_all_wf (XXH64 : list byte -> Z -> Z) (items : list (list byte)) :
  forall f : BloomFilter, wf f ->
  exists f', add_all XXH64 f items = Ok f' /\ wf f' /\
    num_bits_ f' = num_bits_ f /\ num_hashes_ f' = num_hashes_ f /\
    bits_le (bits_ f) (bits_ f').
Proof.
  induction items as [|y rest IH]; intros f W; simpl.
  - exists f. repeat split; try apply W. apply bits_le_refl.
  - destruct (add_wf XXH64 f y W) as (f1 & E1 & W1 & M1 & K1 & Le1 & _).
    rewrite E1. simpl.
    destruct (IH f1 W1) as (f2 & E2 & W2 & M2 & K2 & Le2).
    exists f2. repeat split; try apply W2; try congruence.
    + apply (bits_le_trans _ _ _ Le1 Le2).
    + apply (bits_le_trans _ _ _ Le1 Le2).
Qed.

(** With no words at all, every access is outside the vector. *)
Lemma empty_store_add (XXH64 : list byte -> Z -> Z) (m k : Z) (x : list byte) :
  m <> 0 -> 1 <= k -> add XXH64 (mkBloomFilter [] m k) x = Undefined.
Proof.
  intros Hm Hk. unfold add. simpl. apply Z.eqb_neq in Hm. rewrite Hm.
  destruct (Z.to_nat k) as [|k'] eqn:E; [lia |]. reflexivity.
Qed.

Lemma empty_store_might_contain (XXH64 : list byte -> Z -> Z) (m k : Z)
    (x : list byte) :
  m <> 0 -> 1 <= k -> might_contain XXH64 (mkBloomFilter [] m k) x = Undefined.
Proof.
  intros Hm Hk. unfold might_contain. simpl. apply Z.eqb_neq in Hm. rewrite Hm.
  destruct (Z.to_nat k) as [|k'] eqn:E; [lia |]. reflexivity.
Qed.

(** ** The claims about [add] and [might_contain] *)

(** No false negatives on a filter that satisfies the data-model
    invariant (at least one bit, at least one hash, [ceil(num_bits/64)]
    words): for any hash function and any byte sequence [x], [add x]
    returns, [might_contain x] then returns [true], and it still returns
    [true] after any further sequence [ys] of [add] calls, each of which
    returns as well. *)
Theorem no_false_negatives (XXH64 : list byte -> Z -> Z) (f : BloomFilter)
    (x : list byte) (ys : list (list byte)) :
  wf f ->
  exists f1, add XXH64 f x = Ok f1 /\
    might_contain XXH64 f1 x = Ok true /\
    exists f2, add_all XXH64 f1 ys = Ok f2 /\
      might_contain XXH64 f2 x = Ok true.
Proof.
  intros W.
  destruct (add_wf XXH64 f x W) as (f1 & E1 & W1 & _ & _ & _ & T1).
  exists f1. split; [exact E1 |]. split; [exact T1 |].
  destruct (add_all_wf XXH64 ys f1 W1) as (f2 & E2 & _ & M2 & K2 & Le2).
  exists f2. split; [exact E2 |].
  now apply (might_contain_mono XXH64 f1 f2 x M2 K2 Le2).
Qed.

Lemma no_false_negatives_witness :
  wf (mkBloomFilter [0] 10 3) /\
  exists f1, add sample_hash (mkBloomFilter [0] 10 3) ["a"%byte] = Ok f1 /\
    might_contain sample_hash f1 ["a"%byte] = Ok true /\
    exists f2, add_all sample_hash f1 [["b"%byte]; []] = Ok f2 /\
      might_contain sample_hash f2 ["a"%byte] = Ok true.
Proof.
  assert (W : wf (mkBloomFilter [0] 10 3)).
  { unfold wf. simpl. repeat split; (lia || reflexivity). }
  split; [exact W |].
  apply (no_false_negatives sample_hash (mkBloomFilter [0] 10 3)
           ["a"%byte] [["b"%byte]; []] W).
Defined.

(** One further [add] on a well-formed state keeps a positive answer, the
    bits that are set, and the two counters. *)
Lemma add_monotone_wf (XXH64 : list byte -> Z -> Z) (f : BloomFilter)
    (x y : list byte) :
  wf f ->
  might_contain XXH64 f x = Ok true ->
  exists f', add XXH64 f y = Ok f' /\
    might_contain XXH64 f' x = Ok true /\
    bits_le (bits_ f) (bits_ f') /\
    num_bits_ f' = num_bits_ f /\
    num_hashes_ f' = num_hashes_ f.
Proof.
  intros W T.
  destruct (add_wf XXH64 f y W) as (f' & E & _ & M & K & Le & _).
  exists f'. split; [exact E |]. split.
  - now apply (might_contain_mono XXH64 f f' x M K Le).
  - auto.
Qed.

(** C4 (canonical index sequence).  With [h1 = XXH64(data, SEED1)] and
    [h2 = XXH64(data, SEED2)], and [num_bits >= 1]: [add] sets, in order,
    and [might_contain] tests, in order and up to the first unset bit,
    exactly the positions [index_i = ((h1 + i*h2) mod 2^64) mod num_bits],
    [i = 0 .. num_hashes-1]; there are [num_hashes] of them and each lies
    in [[0, num_bits)]. *)
Theorem canonical_index_sequence (XXH64 : list byte -> Z -> Z)
    (f : BloomFilter) (data : list byte) :
  1 <= num_bits_ f ->
  let h1 := XXH64 data SEED1 in
  let h2 := XXH64 data SEED2 in
  let idxs := canonical_indices h1 h2 (num_bits_ f) (Z.to_nat (num_hashes_ f)) in
  add XXH64 f data =
    (do bits' <- set_all (bits_ f) idxs;
     Ok (mkBloomFilter bits' (num_bits_ f) (num_hashes_ f))) /\
  might_contain XXH64 f data = test_all (bits_ f) idxs /\
  length idxs = Z.to_nat (num_hashes_ f) /\
  (forall i : nat, (i < Z.to_nat (num_hashes_ f))%nat ->
     idxs !! i = Some (((h1 + Z.of_nat i * h2) mod 2 ^ 64) mod num_bits_ f)) /\
  Forall (fun j => 0 <= j < num_bits_ f) idxs.
Proof.
  intros Hm h1 h2 idxs. subst h1 h2 idxs.
  split; [apply add_refines; lia |].
  split; [apply might_contain_refines; lia |].
  unfold canonical_indices, canonical_indices_from at 1 2.
  split; [now rewrite length_map, length_seq |].
  split; [| now apply canonical_indices_range].
  intros i Hi. rewrite list_lookup_fmap, lookup_seq_lt by exact Hi.
  reflexivity.
Qed.

Lemma canonical_index_sequence_witness :
  1 <= 10 /\
  add sample_hash (mkBloomFilter [0] 10 3) ["a"%byte]
    = (do bits' <- set_all [0] [6; 4; 2]; Ok (mkBloomFilter bits' 10 3)) /\
  might_contain sample_hash (mkBloomFilter [0] 10 3) ["a"%byte]
    = test_all [0] [6; 4; 2] /\
  Forall (fun j => 0 <= j < 10) [6; 4; 2].
Proof.
  pose proof (canonical_index_sequence sample_hash (mkBloomFilter [0] 10 3)
                ["a"%byte] ltac:(simpl; lia)) as (A & T & _ & _ & R).
  split; [lia |]. split; [exact A |]. split; [exact T | exact R].
Defined.

(** C9 (in-bounds bit access).  When the word vector has
    [ceil(num_bits/64)] words and [num_bits >= 1], every position of the
    index sequence is below [num_bits], its word index [j / 64] is below
    the number of words, and both [add] and [might_contain] return: no
    access of either loop falls outside the vector. *)
Theorem in_bounds_bit_access (XXH64 : list byte -> Z -> Z) (f : BloomFilter)
    (data : list byte) :
  1 <= num_bits_ f ->
  Z.of_nat (length (bits_ f)) = ceil_div64 (num_bits_ f) ->
  Forall (fun j => 0 <= j < num_bits_ f /\
                   0 <= j / 64 < Z.of_nat (length (bits_ f)))
    (canonical_indices (XXH64 data SEED1) (XXH64 data SEED2)
       (num_bits_ f) (Z.to_nat (num_hashes_ f))) /\
  (exists f', add XXH64 f data = Ok f') /\
  (exists b, might_contain XXH64 f data = Ok b).
Proof.
  intros Hm HL.
  pose proof (canonical_indices_blocks (XXH64 data SEED1) (XXH64 data SEED2)
                (num_bits_ f) (Z.to_nat (num_hashes_ f)) (bits_ f) Hm HL) as B.
  split; [| split].
  - eapply Forall_impl; [apply canonical_indices_range; exact Hm |].
    intros j Hj. cbv beta in Hj |- *. split; [exact Hj |].
    pose proof (block_in_range _ _ _ HL Hj).
    assert (0 <= j / 64) by (apply Z.div_pos; lia). lia.
  - rewrite add_refines by lia.
    destruct (set_all_in_range _ _ B) as (b & E & _). rewrite E. simpl. eauto.
  - rewrite might_contain_refines by lia. now apply test_all_total.
Qed.

Lemma in_bounds_bit_access_witness :
  1 <= 130 /\
  Z.of_nat (length [0; 0; 0]) = ceil_div64 130 /\
  (exists f', add sample_hash (mkBloomFilter [0; 0; 0] 130 5) ["a"%byte] = Ok f') /\
  (exists b, might_contain sample_hash (mkBloomFilter [0; 0; 0] 130 5) ["a"%byte]
             = Ok b).
Proof.
  assert (Hm : 1 <= num_bits_ (mkBloomFilter [0; 0; 0] 130 5)) by (simpl; lia).
  assert (HL : Z.of_nat (length (bits_ (mkBloomFilter [0; 0; 0] 130 5)))
               = ceil_div64 (num_bits_ (mkBloomFilter [0; 0; 0] 130 5)))
    by reflexivity.
  split; [lia |]. split; [reflexivity |].
  apply (in_bounds_bit_access sample_hash (mkBloomFilter [0; 0; 0] 130 5)
           ["a"%byte] Hm HL).
Defined.

(** ** Construction and restore *)

Lemma num_blocks_of_nonneg (n : Z) : 0 <= num_blocks_of n.
Proof.
  unfold num_blocks_of. apply Z.div_pos; [| lia].
  apply (u64_range (n + 63)).
Qed.

Lemma vec_or_length (bits bits' : list Z) (b m : Z) :
  vec_or bits b m = Ok bits' -> length bits' = length bits.
Proof.
  unfold vec_or. destruct (bits !! Z.to_nat b); [| discriminate].
  intros [= <-]. apply length_insert.
Qed.

Lemma set_all_length (idxs : list Z) : forall bits bits' : list Z,
  set_all bits idxs = Ok bits' -> length bits' = length bits.
Proof.
  induction idxs as [|j rest IH]; simpl; intros bits bits' E.
  - congruence.
  - destruct (set_bit bits j) as [b1| |] eqn:E1; simpl in E; try discriminate.
    rewrite (IH _ _ E). now apply vec_or_length in E1.
Qed.

Lemma add_consistent (XXH64 : list byte -> Z -> Z) (f f' : BloomFilter)
    (x : list byte) :
  consistent f -> add XXH64 f x = Ok f' -> consistent f'.
Proof.
  intros (Hm & Hk & HL) E. rewrite add_refines in E by exact Hm.
  destruct (set_all _ _) as [b| |] eqn:S; simpl in E; try discriminate.
  injection E as <-. unfold consistent. simpl.
  rewrite (set_all_length _ _ _ S). auto.
Qed.

Lemma initialize_bits_ok (can_allocate : Z -> bool) (f f' : BloomFilter) :
  initialize_bits can_allocate f = Ok f' ->
  f' = mkBloomFilter (replicate (Z.to_nat (num_blocks_of (num_bits_ f))) 0)
         (num_bits_ f) (num_hashes_ f).
Proof.
  unfold initialize_bits. destruct (_ || _); [| discriminate]. congruence.
Qed.

Lemma initialize_bits_consistent (can_allocate : Z -> bool) (f f' : BloomFilter) :
  num_bits_ f <> 0 -> num_hashes_ f <> 0 ->
  initialize_bits can_allocate f = Ok f' -> consistent f'.
Proof.
  intros Hm Hk E. apply initialize_bits_ok in E. subst f'.
  unfold consistent. simpl. repeat split; try assumption.
  rewrite length_replicate. pose proof (num_blocks_of_nonneg (num_bits_ f)). lia.
Qed.

Lemma calculate_optimal_params_ok (std_log std_ceil : double -> double)
    (f f' : BloomFilter) (n : Z) (p : double) :
  calculate_optimal_params std_log std_ceil f n p = Ok f' ->
  1 <= num_bits_ f' < 2 ^ 64 /\ 1 <= num_hashes_ f' <= 32 /\ bits_ f' = bits_ f.
Proof.
  unfold calculate_optimal_params.
  destruct (d_gt _ _); [discriminate |].
  destruct (size_t_of_double (std_ceil _)) as [m| |] eqn:Em; simpl; try discriminate.
  destruct (size_t_of_double (std_ceil _)) as [k| |] eqn:Ek in |- *; simpl;
    try discriminate.
  intros [= <-]. simpl.
  assert (Rm : 0 <= m < 2 ^ 64).
  { clear Ek. unfold size_t_of_double in Em.
    destruct (std_ceil _) as [s| s| |s mm e]; try discriminate.
    - injection Em as <-. lia.
    - destruct (Z.shiftl (Z.pos mm) e =? 0); [injection Em as <-; lia |].
      destruct s; [discriminate |].
      destruct (Z.shiftl (Z.pos mm) e <=? SIZE_MAX) eqn:Le; [| discriminate].
      injection Em as <-. apply Z.leb_le in Le. unfold SIZE_MAX in Le.
      pose proof (Z.shiftl_nonneg (Z.pos mm) e). lia. }
  split; [lia | split; [lia | reflexivity]].
Qed.

Lemma BloomFilter_optimal_ok (std_log std_ceil : double -> double)
    (can_allocate : Z -> bool) (n : Z) (p : double) (f : BloomFilter) :
  BloomFilter_optimal std_log std_ceil can_allocate n p = Ok f ->
  1 <= num_bits_ f < 2 ^ 64 /\ 1 <= num_hashes_ f <= 32 /\
  bits_ f = replicate (Z.to_nat (num_blocks_of (num_bits_ f))) 0.
Proof.
  unfold BloomFilter_optimal.
  destruct (n =? 0); [discriminate |].
  destruct (_ || _); [discriminate |].
  destruct (calculate_optimal_params _ _ _ _ _) as [f1| |] eqn:E1; simpl;
    try discriminate.
  intros E2. apply calculate_optimal_params_ok in E1 as (Hm & Hk & _).
  apply initialize_bits_ok in E2. subst f. simpl. auto.
Qed.

Lemma BloomFilter_explicit_ok (can_allocate : Z -> bool) (m k : Z)
    (f : BloomFilter) :
  BloomFilter_explicit can_allocate m k = Ok f ->
  m <> 0 /\ k <> 0 /\
  f = mkBloomFilter (replicate (Z.to_nat (num_blocks_of m)) 0) m k.
Proof.
  unfold BloomFilter_explicit. simpl.
  destruct (m =? 0) eqn:Em; [discriminate |].
  destruct (k =? 0) eqn:Ek; [discriminate |].
  intros E. apply initialize_bits_ok in E.
  apply Z.eqb_neq in Em, Ek. auto.
Qed.

Lemma BloomFilter_restore_ok (m k : Z) (words : list Z) (f : BloomFilter) :
  BloomFilter_restore m k words = Ok f ->
  f = mkBloomFilter words m k /\ consistent f.
Proof.
  unfold BloomFilter_restore. simpl.
  destruct (m =? 0) eqn:Em; [discriminate |].
  destruct (k =? 0) eqn:Ek; [discriminate |]. simpl.
  destruct (Z.of_nat (length words) =? num_blocks_of m) eqn:El; [| discriminate].
  simpl. intros [= <-]. split; [reflexivity |].
  apply Z.eqb_neq in Em, Ek. apply Z.eqb_eq in El.
  unfold consistent. simpl. auto.
Qed.

Lemma restore_of_consistent (f : BloomFilter) :
  consistent f ->
  BloomFilter_restore (num_bits_ f) (num_hashes_ f) (bits_ f) = Ok f.
Proof.
  intros (Hm & Hk & HL). unfold BloomFilter_restore. simpl.
  apply Z.eqb_neq in Hm, Hk. rewrite Hm, Hk. simpl.
  apply Z.eqb_eq in HL. rewrite HL. simpl. now destruct f.
Qed.

Lemma reachable_consistent (XXH64 : list byte -> Z -> Z)
    (std_log std_ceil : double -> double) (can_allocate : Z -> bool)
    (f : BloomFilter) :
  reachable XXH64 std_log std_ceil can_allocate f -> consistent f.
Proof.
  induction 1 as [n p f _ E | m k f _ _ E | m k ws f _ _ _ E | f f' x _ IH E].
  - apply BloomFilter_optimal_ok in E as (Hm & Hk & Eb).
    unfold consistent. rewrite Eb at 1. rewrite length_replicate.
    pose proof (num_blocks_of_nonneg (num_bits_ f)). repeat split; lia.
  - apply BloomFilter_explicit_ok in E as (Hm & Hk & ->).
    unfold consistent. simpl. rewrite length_replicate.
    pose proof (num_blocks_of_nonneg m). repeat split; (assumption || lia).
  - now apply BloomFilter_restore_ok in E as [_ C].
  - eapply add_consistent; eauto.
Qed.

(** C2 (restore round-trip).  For every filter [F] built by one of the
    three constructors and mutated by any sequence of [add] calls, the
    three-argument constructor applied to the exported triple returns a
    filter [G]; the words of [G] are the words of [F], and
    [might_contain] gives the same outcome on [G] and on [F] for every
    byte sequence. *)
Theorem restore_round_trip (XXH64 : list byte -> Z -> Z)
    (std_log std_ceil : double -> double) (can_allocate : Z -> bool)
    (F : BloomFilter) :
  reachable XXH64 std_log std_ceil can_allocate F ->
  exists G,
    BloomFilter_restore (get_num_bits F) (get_num_hashes F)
      (get_raw_bits_vector F) = Ok G /\
    get_raw_bits_vector G = get_raw_bits_vector F /\
    forall x : list byte, might_contain XXH64 G x = might_contain XXH64 F x.
Proof.
  intros R. apply reachable_consistent in R.
  exists F. split; [now apply restore_of_consistent |]. split; reflexivity.
Qed.

Lemma restore_round_trip_witness :
  reachable sample_hash identity_on_double identity_on_double always_allocates
    (mkBloomFilter [84] 10 3) /\
  exists G,
    BloomFilter_restore 10 3 [84] = Ok G /\
    get_raw_bits_vector G = [84] /\
    forall x : list byte,
      might_contain sample_hash G x
      = might_contain sample_hash (mkBloomFilter [84] 10 3) x.
Proof.
  assert (R : reachable sample_hash identity_on_double identity_on_double
                always_allocates (mkBloomFilter [84] 10 3)).
  { apply reach_add with (f := mkBloomFilter [0] 10 3) (x := ["a"%byte]).
    - apply reach_explicit with (m := 10) (k := 3);
        [unfold is_u64; lia | unfold is_u64; lia | reflexivity].
    - vm_compute. reflexivity. }
  split; [exact R |].
  apply (restore_round_trip sample_hash identity_on_double identity_on_double
           always_allocates (mkBloomFilter [84] 10 3) R).
Defined.

(** ** Every state of a filter object *)

Lemma reachable_sizes (XXH64 : list byte -> Z -> Z)
    (std_log std_ceil : double -> double) (can_allocate : Z -> bool)
    (f : BloomFilter) :
  reachable XXH64 std_log std_ceil can_allocate f ->
  is_u64 (num_bits_ f) /\ is_u64 (num_hashes_ f).
Proof.
  unfold is_u64.
  induction 1 as [n p f _ E | m k f Hm Hk E | m k ws f Hm Hk _ E | f f' x _ IH E].
  - apply BloomFilter_optimal_ok in E as (Bm & Bk & _). lia.
  - apply BloomFilter_explicit_ok in E as (_ & _ & ->). simpl. auto.
  - apply BloomFilter_restore_ok in E as [-> _]. simpl. auto.
  - unfold add in E. destruct (num_bits_ f =? 0); [now injection E as <- |].
    destruct (add_loop _ _ _ _ _ _) as [b| |]; simpl in E; try discriminate.
    injection E as <-. simpl. exact IH.
Qed.

(** Away from the wrap, every state of a filter object satisfies the
    data-model invariant. *)
Lemma reachable_no_wrap_wf (XXH64 : list byte -> Z -> Z)
    (std_log std_ceil : double -> double) (can_allocate : Z -> bool)
    (f : BloomFilter) :
  reachable XXH64 std_log std_ceil can_allocate f ->
  num_bits_ f <= 2 ^ 64 - 64 -> wf f.
Proof.
  intros R Small.
  destruct (reachable_sizes _ _ _ _ _ R) as [Bm Bk]. unfold is_u64 in Bm, Bk.
  destruct (reachable_consistent _ _ _ _ _ R) as (Nm & Nk & L).
  rewrite num_blocks_of_no_wrap in L by lia.
  unfold wf. repeat split; (lia || exact L).
Qed.

(** A state in which some query is answered [true] satisfies the
    data-model invariant: the states with a wrapped block count have no
    words and answer no query. *)
Lemma reachable_true_wf (XXH64 : list byte -> Z -> Z)
    (std_log std_ceil : double -> double) (can_allocate : Z -> bool)
    (f : BloomFilter) (x : list byte) :
  reachable XXH64 std_log std_ceil can_allocate f ->
  might_contain XXH64 f x = Ok true -> wf f.
Proof.
  intros R T.
  destruct (reachable_sizes _ _ _ _ _ R) as [Bm Bk]. unfold is_u64 in Bm, Bk.
  destruct (reachable_consistent _ _ _ _ _ R) as (Nm & Nk & L).
  destruct (Z_le_gt_dec (num_bits_ f) (2 ^ 64 - 64)) as [Small | Big].
  - rewrite num_blocks_of_no_wrap in L by lia. unfold wf. repeat split; (lia || exact L).
  - rewrite num_blocks_of_wrap in L by lia.
    destruct f as [bits m k]. simpl in *.
    destruct bits; [| discriminate].
    rewrite empty_store_might_contain in T by lia. discriminate.
Qed.

(** ** The enhanced recurrence against the simple one *)

Lemma shiftr_6 (j : Z) : Z.shiftr j 6 = j / 64.
Proof. now rewrite Z.shiftr_div_pow2 by lia. Qed.

Lemma land_63 (j : Z) : Z.land j 63 = j mod 64.
Proof. change 63 with (Z.ones 6). now rewrite Z.land_ones by lia. Qed.

Lemma enhanced_add_loop_refines (m : Z) (rem : nat) :
  m <> 0 ->
  forall (i probe step : Z) (bits : list Z),
  Enhanced.add_loop m rem i probe step bits
  = set_all bits (enhanced_indices_from m rem i probe step).
Proof.
  intros Hm. apply Z.eqb_neq in Hm.
  induction rem as [|rem IH]; intros i probe step bits; [reflexivity |].
  simpl. rewrite Hm, shiftr_6, land_63. fold (set_bit bits (probe mod m)).
  destruct (set_bit bits (probe mod m)) as [b| |]; simpl; try reflexivity.
  apply IH.
Qed.

Lemma enhanced_add_refines (XXH64 : list byte -> Z -> Z) (f : BloomFilter)
    (data : list byte) :
  num_bits_ f <> 0 ->
  Enhanced.add XXH64 f data =
    do bits' <- set_all (bits_ f)
                  (enhanced_indices (XXH64 data SEED1) (XXH64 data SEED2)
                     (num_bits_ f) (Z.to_nat (num_hashes_ f)));
    Ok (mkBloomFilter bits' (num_bits_ f) (num_hashes_ f)).
Proof.
  intros Hm. unfold Enhanced.add. now rewrite enhanced_add_loop_refines.
Qed.

Lemma subset_b_complete (l1 l2 : list Z) :
  (forall j, In j l1 -> In j l2) -> subset_b l1 l2 = true.
Proof.
  intros H. unfold subset_b. apply forallb_forall. intros j Hj.
  apply existsb_exists. exists j. split; [now apply H | apply Z.eqb_refl].
Qed.

Lemma same_positions_b (l1 l2 : list Z) :
  same_positions l1 l2 -> subset_b l1 l2 && subset_b l2 l1 = true.
Proof.
  intros H. apply andb_true_intro.
  split; apply subset_b_complete; intros j; apply H.
Qed.

(** Modulo 4 the positions depend on the residues of the two hashes only:
    the simple scheme probes [a], [a+b], [a+2b]; the enhanced scheme probes
    [a], [a+b], [a+2b+1]. *)
Lemma canonical_indices_mod4 (h1 h2 : Z) :
  canonical_indices h1 h2 4 3
  = [h1 mod 4; (h1 mod 4 + h2 mod 4) mod 4; (h1 mod 4 + 2 * (h2 mod 4)) mod 4].
Proof.
  unfold canonical_indices, canonical_indices_from, canonical_index. simpl map.
  change (2 ^ 64) with 18446744073709551616.
  f_equal; [| f_equal; [| f_equal]];
    Z.to_euclidean_division_equations; lia.
Qed.

Lemma enhanced_indices_mod4 (h1 h2 : Z) :
  enhanced_indices h1 h2 4 3
  = [h1 mod 4; (h1 mod 4 + h2 mod 4) mod 4;
     (h1 mod 4 + 2 * (h2 mod 4) + 1) mod 4].
Proof.
  unfold enhanced_indices. simpl enhanced_indices_from.
  change (2 ^ 64) with 18446744073709551616.
  f_equal; [| f_equal; [| f_equal]];
    Z.to_euclidean_division_equations; lia.
Qed.

Lemma schemes_differ_mod4 (XXH64 : list byte -> Z -> Z) (data : list byte) :
  ~ same_positions
      (canonical_indices (XXH64 data SEED1) (XXH64 data SEED2) 4 3)
      (enhanced_indices (XXH64 data SEED1) (XXH64 data SEED2) 4 3) /\
  exists w1 w2,
    add XXH64 (mkBloomFilter [0] 4 3) data = Ok (mkBloomFilter [w1] 4 3) /\
    Enhanced.add XXH64 (mkBloomFilter [0] 4 3) data = Ok (mkBloomFilter [w2] 4 3) /\
    w1 <> w2.
Proof.
  rewrite add_refines, enhanced_add_refines by (simpl; lia).
  change (Z.to_nat (num_hashes_ (mkBloomFilter [0] 4 3))) with 3%nat.
  change (num_bits_ (mkBloomFilter [0] 4 3)) with 4.
  change (num_hashes_ (mkBloomFilter [0] 4 3)) with 3.
  change (bits_ (mkBloomFilter [0] 4 3)) with [0].
  rewrite canonical_indices_mod4, enhanced_indices_mod4.
  pose proof (Z.mod_pos_bound (XXH64 data SEED1) 4 ltac:(lia)) as Ba.
  pose proof (Z.mod_pos_bound (XXH64 data SEED2) 4 ltac:(lia)) as Bb.
  generalize dependent (XXH64 data SEED1 mod 4). intros a Ba.
  generalize dependent (XXH64 data SEED2 mod 4). intros b Bb.
  assert (Ha : a = 0 \/ a = 1 \/ a = 2 \/ a = 3) by lia.
  assert (Hb : b = 0 \/ b = 1 \/ b = 2 \/ b = 3) by lia.
  clear Ba Bb.
  destruct Ha as [-> | [-> | [-> | ->]]];
    destruct Hb as [-> | [-> | [-> | ->]]];
    (split;
     [ intros S; apply same_positions_b in S; vm_compute in S; discriminate
     | eexists; eexists;
       split; [vm_compute; reflexivity |];
       split; [vm_compute; reflexivity |];
       discriminate ]).
Qed.

(** C5 (the two schemes are not interchangeable).  On the same bytes and
    the same [(num_bits, num_hashes) = (4, 3)], whatever the hash function,
    the simple recurrence of src/bloom_filter.cpp and the enhanced
    recurrence of src/src/bloomfilter/bloom_filter.cpp probe different
    sets of positions, the two [add] started in the same empty filter
    return different word vectors, and so the two [add] are different
    state transformers. *)
Theorem schemes_not_interchangeable (XXH64 : list byte -> Z -> Z) :
  (exists (data : list byte) (num_bits num_hashes : Z),
     ~ same_positions
         (canonical_indices (XXH64 data SEED1) (XXH64 data SEED2)
            num_bits (Z.to_nat num_hashes))
         (enhanced_indices (XXH64 data SEED1) (XXH64 data SEED2)
            num_bits (Z.to_nat num_hashes))) /\
  (exists (data : list byte) (f f1 f2 : BloomFilter),
     add XXH64 f data = Ok f1 /\
     Enhanced.add XXH64 f data = Ok f2 /\
     get_raw_bits_vector f1 <> get_raw_bits_vector f2) /\
  add XXH64 <> Enhanced.add XXH64.
Proof.
  destruct (schemes_differ_mod4 XXH64 []) as (D & w1 & w2 & E1 & E2 & Ne).
  split; [| split].
  - exists [], 4, 3. exact D.
  - exists [], (mkBloomFilter [0] 4 3), (mkBloomFilter [w1] 4 3),
      (mkBloomFilter [w2] 4 3).
    split; [exact E1 |]. split; [exact E2 |]. simpl. congruence.
  - intros Eq. rewrite Eq in E1. congruence.
Qed.

(** ** Where the block count wraps *)

(** The block count is the ceiling as long as [num_bits + 63] fits. *)
Lemma BloomFilter_restore_no_wrap (m k : Z) (words : list Z) :
  1 <= m <= 2 ^ 64 - 64 -> 1 <= k ->
  (BloomFilter_restore m k words = Throw runtime_error <->
     Z.of_nat (length words) <> ceil_div64 m) /\
  (Z.of_nat (length words) = ceil_div64 m ->
     BloomFilter_restore m k words = Ok (mkBloomFilter words m k)).
Proof.
  intros Hm Hk. unfold BloomFilter_restore. simpl.
  rewrite num_blocks_of_no_wrap by lia.
  destruct (m =? 0) eqn:Em; [apply Z.eqb_eq in Em; lia |].
  destruct (k =? 0) eqn:Ek; [apply Z.eqb_eq in Ek; lia |]. simpl.
  destruct (Z.of_nat (length words) =? ceil_div64 m) eqn:El; simpl.
  - apply Z.eqb_eq in El. split; [| reflexivity].
    split; [discriminate | intros N; contradiction].
  - apply Z.eqb_neq in El. split; [| intros E; contradiction].
    split; [intros _; exact El | reflexivity].
Qed.

(** C8, at the failing input.  With [num_bits = 2^64 - 1] the sum
    [num_bits + 63] wraps and the expected block count is 0, not
    [ceil(num_bits / 64) = 2^58]: the restore constructor accepts the
    empty word vector, whose length is not the ceiling, and on the filter
    it returns every [add] and [might_contain] reads outside the vector. *)
Theorem restore_accepts_wrapped_length :
  BloomFilter_restore (2 ^ 64 - 1) 1 []
    = Ok (mkBloomFilter [] (2 ^ 64 - 1) 1) /\
  Z.of_nat (length (@nil Z)) <> ceil_div64 (2 ^ 64 - 1) /\
  ceil_div64 (2 ^ 64 - 1) = 2 ^ 58 /\
  forall (XXH64 : list byte -> Z -> Z) (x : list byte),
    add XXH64 (mkBloomFilter [] (2 ^ 64 - 1) 1) x = Undefined /\
    might_contain XXH64 (mkBloomFilter [] (2 ^ 64 - 1) 1) x = Undefined.
Proof.
  split; [reflexivity |]. split; [discriminate |]. split; [reflexivity |].
  intros XXH64 x.
  split; [apply empty_store_add | apply empty_store_might_contain]; lia.
Qed.

(** ** A fresh filter *)

Lemma fresh_might_contain_false (XXH64 : list byte -> Z -> Z) (m k : Z)
    (x : list byte) :
  1 <= m <= 2 ^ 64 - 64 -> 1 <= k ->
  might_contain XXH64
    (mkBloomFilter (replicate (Z.to_nat (num_blocks_of m)) 0) m k) x = Ok false.
Proof.
  intros Hm Hk. rewrite might_contain_refines by (simpl; lia). simpl.
  destruct (Z.to_nat k) as [|k'] eqn:E; [lia |].
  unfold canonical_indices, canonical_indices_from. simpl.
  set (j := canonical_index (XXH64 x SEED1) (XXH64 x SEED2) m 0).
  assert (Hj : 0 <= j < m) by (apply canonical_index_range; lia).
  assert (L : replicate (Z.to_nat (num_blocks_of m)) 0 !! Z.to_nat (j / 64)
              = Some 0).
  { apply lookup_replicate_2.
    rewrite <- (length_replicate (Z.to_nat (num_blocks_of m)) 0).
    apply (block_in_range m j); [| exact Hj].
    rewrite length_replicate, num_blocks_of_no_wrap by lia.
    pose proof (ceil_div64_spec m). lia. }
  rewrite (test_bit_lookup _ _ _ L), Z.testbit_0_l. reflexivity.
Qed.

(** Away from the wrap, a filter from the explicit or from the optimal
    constructor reports nothing. *)
Lemma BloomFilter_explicit_fresh (XXH64 : list byte -> Z -> Z)
    (can_allocate : Z -> bool) (m k : Z) (f : BloomFilter) (x : list byte) :
  0 <= m <= 2 ^ 64 - 64 -> 0 <= k ->
  BloomFilter_explicit can_allocate m k = Ok f ->
  might_contain XXH64 f x = Ok false.
Proof.
  intros Hm Hk E. apply BloomFilter_explicit_ok in E as (Nm & Nk & ->).
  apply fresh_might_contain_false; lia.
Qed.

Lemma BloomFilter_optimal_fresh (XXH64 : list byte -> Z -> Z)
    (std_log std_ceil : double -> double) (can_allocate : Z -> bool)
    (n : Z) (p : double) (f : BloomFilter) (x : list byte) :
  BloomFilter_optimal std_log std_ceil can_allocate n p = Ok f ->
  num_bits_ f <= 2 ^ 64 - 64 ->
  might_contain XXH64 f x = Ok false.
Proof.
  intros E Hm. apply BloomFilter_optimal_ok in E as (Bm & Bk & Eb).
  destruct f as [bits m k]. simpl in *. subst bits.
  apply fresh_might_contain_false; lia.
Qed.

(** C10, at the failing input.  The explicit constructor called with
    [num_bits = 2^64 - 1] and [num_hashes = 1] returns a filter with no
    words at all (the block count wraps to 0, whatever the allocator
    does), and [might_contain] on that fresh filter reads outside the
    vector for every byte sequence: it does not return [false]. *)
Theorem fresh_filter_without_words (can_allocate : Z -> bool) :
  BloomFilter_explicit can_allocate (2 ^ 64 - 1) 1
    = Ok (mkBloomFilter [] (2 ^ 64 - 1) 1) /\
  forall (XXH64 : list byte -> Z -> Z) (x : list byte),
    might_contain XXH64 (mkBloomFilter [] (2 ^ 64 - 1) 1) x = Undefined /\
    might_contain XXH64 (mkBloomFilter [] (2 ^ 64 - 1) 1) x <> Ok false.
Proof.
  split; [reflexivity |]. intros XXH64 x.
  rewrite empty_store_might_contain by lia. split; [reflexivity | discriminate].
Qed.

(** ** Invalid parameters *)

Lemma calculate_optimal_params_throws (std_log std_ceil : double -> double)
    (f : BloomFilter) (n : Z) (p : double) (e : exception) :
  calculate_optimal_params std_log std_ceil f n p = Throw e -> e = overflow_error.
Proof.
  unfold calculate_optimal_params.
  destruct (d_gt _ _); [congruence |].
  destruct (size_t_of_double (std_ceil _)) as [m| |] eqn:Em; simpl;
    [| unfold size_t_of_double in Em;
       repeat match type of Em with
              | context [match ?c with _ => _ end] => destruct c
              end; discriminate
     | discriminate].
  destruct (size_t_of_double (std_ceil _)) as [k| |] eqn:Ek in |- *; simpl;
    [discriminate | | discriminate].
  unfold size_t_of_double in Ek.
  repeat match type of Ek with
         | context [match ?c with _ => _ end] => destruct c
         end; discriminate.
Qed.

Lemma initialize_bits_throws (can_allocate : Z -> bool) (f : BloomFilter)
    (e : exception) :
  initialize_bits can_allocate f = Throw e -> e = runtime_error.
Proof. unfold initialize_bits. destruct (_ || _); congruence. Qed.

(** The guard of the optimal constructor is the only source of
    [invalid_argument]: it fires for a zero count and when one of the two
    comparisons of the source holds. *)
Lemma BloomFilter_optimal_invalid (std_log std_ceil : double -> double)
    (can_allocate : Z -> bool) (n : Z) (p : double) :
  BloomFilter_optimal std_log std_ceil can_allocate n p = Throw invalid_argument
  <-> n = 0 \/ d_le p d_zero = true \/ d_ge p d_one = true.
Proof.
  unfold BloomFilter_optimal.
  destruct (n =? 0) eqn:En.
  { apply Z.eqb_eq in En. tauto. }
  apply Z.eqb_neq in En.
  destruct (d_le p d_zero) eqn:E0; simpl; [tauto |].
  destruct (d_ge p d_one) eqn:E1; simpl; [tauto |].
  split; [| intros [? | [? | ?]]; (contradiction || discriminate)].
  destruct (calculate_optimal_params _ _ _ _ _) as [f| e |] eqn:C; simpl.
  - intros I. apply initialize_bits_throws in I. discriminate.
  - intros [= ->]. apply calculate_optimal_params_throws in C. discriminate.
  - discriminate.
Qed.

(** The explicit constructor throws [invalid_argument] exactly for a zero
    bit count or a zero hash count. *)
Lemma BloomFilter_explicit_invalid (can_allocate : Z -> bool) (m k : Z) :
  BloomFilter_explicit can_allocate m k = Throw invalid_argument
  <-> m = 0 \/ k = 0.
Proof.
  unfold BloomFilter_explicit. simpl.
  destruct (m =? 0) eqn:Em.
  { apply Z.eqb_eq in Em. tauto. }
  destruct (k =? 0) eqn:Ek.
  { apply Z.eqb_eq in Ek. tauto. }
  apply Z.eqb_neq in Em, Ek.
  split; [| tauto].
  intros I. apply initialize_bits_throws in I. discriminate.
Qed.

(** Which rates the first comparison catches: zeros, minus infinity and
    negative numbers; never NaN. *)
Lemma d_le_zero (p : double) :
  d_le p d_zero = true <->
  match p with
  | S754_zero _ => True
  | S754_infinity s => s = true
  | S754_nan => False
  | S754_finite s _ _ => s = true
  end.
Proof.
  unfold d_le, d_zero, SFleb. destruct p as [s | s | | s m e]; simpl;
    try destruct s; simpl; split; (tauto || discriminate || reflexivity).
Qed.

(** The second comparison catches plus infinity and never NaN. *)
Lemma d_ge_one_nonfinite :
  d_ge (S754_infinity false) d_one = true /\
  d_ge (S754_infinity true) d_one = false /\
  d_ge S754_nan d_one = false.
Proof. repeat split. Qed.

(** With a logarithm and a ceiling that propagate NaN, as IEEE-754
    functions do, the optimal constructor called with a NaN rate reaches
    the conversion of NaN to [size_t]. *)
Lemma BloomFilter_optimal_nan (std_log std_ceil : double -> double)
    (can_allocate : Z -> bool) (n : Z) :
  n <> 0 -> std_log S754_nan = S754_nan -> std_ceil S754_nan = S754_nan ->
  BloomFilter_optimal std_log std_ceil can_allocate n S754_nan = Undefined.
Proof.
  intros Hn Hlog Hceil. unfold BloomFilter_optimal.
  apply Z.eqb_neq in Hn. rewrite Hn. simpl.
  unfold calculate_optimal_params. rewrite Hlog.
  assert (M : forall a b, d_div (d_neg (d_mul a S754_nan)) b = S754_nan).
  { intros a b. unfold d_mul, d_neg, d_div, SFmul. destruct a; reflexivity. }
  rewrite M. simpl. rewrite Hceil. reflexivity.
Qed.

(** C7, at the failing input.  A NaN rate is outside the open interval
    (0,1), yet the optimal constructor called with a nonzero count and a
    NaN rate does not fail with [invalid_argument], whatever the
    logarithm, the ceiling and the allocator do: both comparisons of the
    guard are false on NaN. *)
Theorem optimal_constructor_accepts_nan (std_log std_ceil : double -> double)
    (can_allocate : Z -> bool) :
  d_le S754_nan d_zero = false /\
  d_ge S754_nan d_one = false /\
  BloomFilter_optimal std_log std_ceil can_allocate 1000 S754_nan
    <> Throw invalid_argument.
Proof.
  split; [reflexivity |]. split; [reflexivity |].
  intros I. apply BloomFilter_optimal_invalid in I.
  destruct I as [I | [I | I]]; discriminate.
Qed.

(** ** The parameter computation *)

(** The integer part of the computation: whenever parameters are derived,
    there is at least one bit and between 1 and 32 hashes. *)
Lemma calculate_optimal_params_clamp (std_log std_ceil : double -> double)
    (f f' : BloomFilter) (n : Z) (p : double) :
  calculate_optimal_params std_log std_ceil f n p = Ok f' ->
  1 <= num_bits_ f' /\ 1 <= num_hashes_ f' <= 32.
Proof.
  intros E. apply calculate_optimal_params_ok in E as (Hm & Hk & _). lia.
Qed.

(** One run: if the logarithm returns [ln_0_01] for [0.01] and [ln_2] for
    [2.0], and the ceiling is exact, 1000 items at rate 0.01 give 9586 bits
    and 7 hashes. *)
Lemma calculate_optimal_params_1000 (std_log : double -> double)
    (f : BloomFilter) :
  std_log d_0_01 = ln_0_01 -> std_log d_two = ln_2 ->
  calculate_optimal_params std_log d_ceil f 1000 d_0_01
  = Ok (mkBloomFilter (bits_ f) 9586 7).
Proof.
  intros H1 H2. unfold calculate_optimal_params. rewrite H1, H2.
  vm_compute. reflexivity.
Qed.

(** ** The guard of the optimal constructor on the values of [double] *)

Lemma digits2_pos_spec (m : positive) :
  2 ^ (Z.pos (digits2_pos m) - 1) <= Z.pos m < 2 ^ Z.pos (digits2_pos m).
Proof.
  induction m as [m IH | m IH |]; simpl digits2_pos.
  - rewrite Pos2Z.inj_succ. change (Z.pos m~1) with (2 * Z.pos m + 1).
    replace (Z.succ (Z.pos (digits2_pos m)) - 1)
      with (Z.succ (Z.pos (digits2_pos m) - 1)) by lia.
    rewrite !Z.pow_succ_r by lia. lia.
  - rewrite Pos2Z.inj_succ. change (Z.pos m~0) with (2 * Z.pos m).
    replace (Z.succ (Z.pos (digits2_pos m)) - 1)
      with (Z.succ (Z.pos (digits2_pos m) - 1)) by lia.
    rewrite !Z.pow_succ_r by lia. lia.
  - simpl. lia.
Qed.

(** A valid finite double has at most 53 mantissa bits, and exactly 53
    above the smallest exponent. *)
Lemma valid_double_finite (s : bool) (m : positive) (e : Z) :
  valid_double (S754_finite s m e) ->
  Z.pos m < 2 ^ 53 /\ (-1074 < e -> 2 ^ 52 <= Z.pos m).
Proof.
  unfold valid_double, valid_binary, bounded, canonical_mantissa, fexp, emin,
    prec, emax.
  intros V. apply andb_prop in V as [C _]. apply Z.eqb_eq in C.
  pose proof (digits2_pos_spec m) as D.
  split.
  - assert (Z.pos (digits2_pos m) <= 53) by lia.
    eapply Z.lt_le_trans; [apply D |]. apply Z.pow_le_mono_r; lia.
  - intros He. assert (E : Z.pos (digits2_pos m) = 53) by lia.
    rewrite E in D. apply D.
Qed.

Lemma d_ge_one_finite (m : positive) (e : Z) :
  valid_double (S754_finite false m e) ->
  (d_ge (S754_finite false m e) d_one = false <-> e < 0 /\ Z.pos m < 2 ^ (- e)).
Proof.
  intros V. apply valid_double_finite in V as [Hlt Hnorm].
  unfold d_ge, d_one, SFleb, SFcompare.
  destruct (Z.compare_spec (-52) e) as [E | L | G].
  - subst e. change (2 ^ (- -52)) with 4503599627370496.
    change (PosDef.Pos.compare_cont Eq 4503599627370496 m)
      with (Z.compare 4503599627370496 (Z.pos m)).
    destruct (Z.compare_spec 4503599627370496 (Z.pos m)) as [Em | Lm | Gm].
    + split; [discriminate | lia].
    + split; [discriminate | lia].
    + split; [intros _; lia | reflexivity].
  - split; [discriminate |]. intros [He Hm]. exfalso.
    specialize (Hnorm ltac:(lia)).
    assert (2 ^ (- e) <= 2 ^ 52) by (apply Z.pow_le_mono_r; lia). lia.
  - split; [| reflexivity]. intros _. split; [lia |].
    assert (2 ^ 53 <= 2 ^ (- e)) by (apply Z.pow_le_mono_r; lia). lia.
Qed.

(** On the values of [double] other than NaN, the guard of the source is
    the test "outside the open interval (0,1)". *)
Lemma rate_guard_semantics (p : double) :
  valid_double p -> p <> S754_nan ->
  (d_le p d_zero || d_ge p d_one = false <-> in_open_unit_interval p).
Proof.
  intros V N. destruct p as [s | s | | s m e]; simpl.
  - split; [discriminate | tauto].
  - destruct s; simpl; (split; [discriminate | tauto]).
  - contradiction.
  - destruct s.
    + split; [discriminate | tauto].
    + change (d_le (S754_finite false m e) d_zero) with false. simpl.
      now apply d_ge_one_finite.
Qed.

(** The optimal constructor on a rate that is not NaN: it fails with
    [invalid_argument] exactly for a zero count or a rate outside (0,1). *)
Lemma BloomFilter_optimal_invalid_not_nan (std_log std_ceil : double -> double)
    (can_allocate : Z -> bool) (n : Z) (p : double) :
  valid_double p -> p <> S754_nan ->
  (BloomFilter_optimal std_log std_ceil can_allocate n p = Throw invalid_argument
   <-> n = 0 \/ ~ in_open_unit_interval p).
Proof.
  intros V N. rewrite BloomFilter_optimal_invalid.
  pose proof (rate_guard_semantics p V N) as G.
  destruct (d_le p d_zero); destruct (d_ge p d_one); simpl in G; split.
  all: intros [H | H]; [left; exact H | right].
  all: try (intros I; apply G in I; destruct H; congruence).
  all: first [ left; reflexivity | right; reflexivity
             | exfalso; apply H, G; reflexivity ].
Qed.

(** ** The optimal constructor never reaches the wrap *)

(** A [size_t] converted from a valid double is at most [2^64 - 2048]:
    the doubles below [2^64] have 53 significant bits. *)
Lemma size_t_of_double_valid (x : double) (n : Z) :
  valid_double x -> size_t_of_double x = Ok n -> 0 <= n <= 2 ^ 64 - 2048.
Proof.
  intros V E. destruct x as [s | s | | s m e]; simpl in E; try discriminate.
  { injection E as <-. lia. }
  destruct (Z.shiftl (Z.pos m) e =? 0); [injection E as <-; lia |].
  destruct s; [discriminate |].
  destruct (Z.shiftl (Z.pos m) e <=? SIZE_MAX) eqn:Le; [| discriminate].
  injection E as <-. apply Z.leb_le in Le. unfold SIZE_MAX in Le.
  apply valid_double_finite in V as [Hlt Hnorm].
  split; [apply Z.shiftl_nonneg; lia |].
  destruct (Z_lt_le_dec e 0) as [Neg | Pos].
  - rewrite Z.shiftl_div_pow2 by lia.
    assert (0 < 2 ^ (- e)) by (apply Z.pow_pos_nonneg; lia).
    assert (Z.pos m / 2 ^ (- e) <= Z.pos m)
      by (apply Z.div_le_upper_bound; [assumption | nia]).
    lia.
  - rewrite Z.shiftl_mul_pow2 in * by lia.
    destruct (Z_le_gt_dec e 11) as [Small | Big].
    + assert (0 < 2 ^ e <= 2 ^ 11)
        by (split; [apply Z.pow_pos_nonneg; lia | apply Z.pow_le_mono_r; lia]).
      change (2 ^ 11) with 2048 in *. change (2 ^ 53) with 9007199254740992 in *.
      change (2 ^ 64) with 18446744073709551616. nia.
    + exfalso. specialize (Hnorm ltac:(lia)).
      assert (2 ^ 12 <= 2 ^ e) by (apply Z.pow_le_mono_r; lia).
      change (2 ^ 12) with 4096 in *. change (2 ^ 52) with 4503599627370496 in *.
      change (2 ^ 64) with 18446744073709551616 in *. nia.
Qed.

Lemma BloomFilter_optimal_no_wrap (std_log std_ceil : double -> double)
    (can_allocate : Z -> bool) (n : Z) (p : double) (f : BloomFilter) :
  (forall x, valid_double (std_ceil x)) ->
  BloomFilter_optimal std_log std_ceil can_allocate n p = Ok f ->
  1 <= num_bits_ f <= 2 ^ 64 - 2048.
Proof.
  intros V. unfold BloomFilter_optimal.
  destruct (n =? 0); [discriminate |].
  destruct (_ || _); [discriminate |].
  destruct (calculate_optimal_params _ _ _ _ _) as [f1| |] eqn:E1; simpl;
    try discriminate.
  intros E2. apply initialize_bits_ok in E2. subst f. simpl.
  unfold calculate_optimal_params in E1.
  destruct (d_gt _ _); [discriminate |].
  destruct (size_t_of_double (std_ceil _)) as [m| |] eqn:Em; simpl in E1;
    try discriminate.
  apply size_t_of_double_valid in Em; [| apply V].
  destruct (size_t_of_double (std_ceil _)) as [k| |] in E1; simpl in E1;
    try discriminate.
  injection E1 as <-. simpl. lia.
Qed.

(** With a ceiling that returns doubles, a filter from the optimal
    constructor reports nothing. *)
Lemma BloomFilter_optimal_fresh_valid (XXH64 : list byte -> Z -> Z)
    (std_log std_ceil : double -> double) (can_allocate : Z -> bool)
    (n : Z) (p : double) (f : BloomFilter) (x : list byte) :
  (forall y, valid_double (std_ceil y)) ->
  BloomFilter_optimal std_log std_ceil can_allocate n p = Ok f ->
  might_contain XXH64 f x = Ok false.
Proof.
  intros V E. eapply BloomFilter_optimal_fresh; [exact E |].
  pose proof (BloomFilter_optimal_no_wrap _ _ _ _ _ _ V E). lia.
Qed.

(** ** Which bits [add] sets *)

Lemma get_bit_true (bits : list Z) (j : Z) :
  get_bit bits j = true <-> bit_is_set bits j.
Proof.
  unfold get_bit, bit_is_set. split.
  - destruct (bits !! Z.to_nat (j / 64)) as [w|]; [| discriminate].
    intros B. exists w. auto.
  - intros (w & L & B). now rewrite L.
Qed.

Lemma vec_or_lookup (bits bits' : list Z) (b mask : Z) (n : nat) :
  vec_or bits b mask = Ok bits' ->
  bits' !! n =
    (fun w => if Nat.eqb (Z.to_nat b) n then Z.lor w mask else w) <$> bits !! n.
Proof.
  unfold vec_or. destruct (bits !! Z.to_nat b) as [w0|] eqn:L; [| discriminate].
  intros [= <-]. destruct (Nat.eqb_spec (Z.to_nat b) n) as [<- | Ne].
  - rewrite list_lookup_insert_eq by (eapply lookup_lt_Some; eauto).
    now rewrite L.
  - rewrite list_lookup_insert_ne by exact Ne.
    destruct (bits !! n); reflexivity.
Qed.

(** After [set_all], bit [p] of word [n] is what it was, or a position of
    the list addresses it. *)
Lemma set_all_words (idxs : list Z) : forall (bits bits' : list Z) (n : nat) (w : Z),
  set_all bits idxs = Ok bits' -> bits !! n = Some w ->
  exists w', bits' !! n = Some w' /\
    forall p, Z.testbit w' p = Z.testbit w p || hits idxs n p.
Proof.
  induction idxs as [|j rest IH]; intros bits bits' n w E L; simpl in E.
  - injection E as <-. exists w. split; [exact L |].
    intros p. simpl. now rewrite orb_false_r.
  - destruct (set_bit bits j) as [b1| |] eqn:E1; simpl in E; try discriminate.
    unfold set_bit in E1.
    rewrite u64_bit in E1 by (apply Z.mod_pos_bound; lia).
    pose proof (vec_or_lookup _ _ _ _ n E1) as L1. rewrite L in L1. simpl in L1.
    destruct (IH _ _ _ _ E L1) as (w' & L' & B'). exists w'. split; [exact L' |].
    intros p. rewrite B'. unfold hits. simpl.
    destruct (Nat.eqb (Z.to_nat (j / 64)) n); simpl.
    + rewrite Z.lor_spec, Z.pow2_bits_eqb by (apply Z.mod_pos_bound; lia).
      now rewrite orb_assoc.
    + reflexivity.
Qed.

Lemma hits_In (idxs : list Z) (j : Z) :
  Forall (fun i => 0 <= i) idxs -> 0 <= j ->
  (hits idxs (Z.to_nat (j / 64)) (j mod 64) = true <-> In j idxs).
Proof.
  intros Pos Hj. unfold hits. rewrite existsb_exists. split.
  - intros (i & Hi & T). apply andb_prop in T as [T1 T2].
    apply Nat.eqb_eq in T1. apply Z.eqb_eq in T2.
    rewrite Forall_forall in Pos. specialize (Pos i ltac:(now apply list_elem_of_In)).
    assert (0 <= i / 64) by (apply Z.div_pos; lia).
    assert (0 <= j / 64) by (apply Z.div_pos; lia).
    assert (i / 64 = j / 64) by lia.
    pose proof (Z.div_mod i 64 ltac:(lia)).
    pose proof (Z.div_mod j 64 ltac:(lia)).
    replace j with i by lia. exact Hi.
  - intros Hi. exists j. split; [exact Hi |].
    now rewrite Nat.eqb_refl, Z.eqb_refl.
Qed.

Lemma set_all_get_bit (idxs bits bits' : list Z) (j : Z) :
  set_all bits idxs = Ok bits' ->
  get_bit bits' j
  = get_bit bits j || (hits idxs (Z.to_nat (j / 64)) (j mod 64)
                       && bool_decide (Z.to_nat (j / 64) < length bits)%nat).
Proof.
  intros E. unfold get_bit.
  destruct (bits !! Z.to_nat (j / 64)) as [w|] eqn:L.
  - destruct (set_all_words _ _ _ _ _ E L) as (w' & L' & B). rewrite L', B.
    rewrite bool_decide_eq_true_2 by (eapply lookup_lt_Some; eauto).
    now rewrite andb_true_r.
  - apply lookup_ge_None in L.
    rewrite bool_decide_eq_false_2 by lia. rewrite andb_false_r.
    rewrite (lookup_ge_None_2 bits') by (rewrite (set_all_length _ _ _ E); lia).
    reflexivity.
Qed.

Lemma positions_range (XXH64 : list byte -> Z -> Z) (f : BloomFilter) (x : list byte) :
  1 <= num_bits_ f -> Forall (fun j => 0 <= j < num_bits_ f) (positions XXH64 f x).
Proof. intros Hm. now apply canonical_indices_range. Qed.

Lemma positions_nonneg (XXH64 : list byte -> Z -> Z) (f : BloomFilter) (x : list byte) :
  1 <= num_bits_ f -> Forall (fun j => 0 <= j) (positions XXH64 f x).
Proof.
  intros Hm. eapply Forall_impl; [now apply positions_range |].
  intros j Hj. cbv beta in Hj. lia.
Qed.

Lemma add_get_bit_iff (XXH64 : list byte -> Z -> Z)
    (f : BloomFilter) (x : list byte) :
  wf f ->
  exists f', add XXH64 f x = Ok f' /\
    forall j, 0 <= j ->
      (get_bit (bits_ f') j = true <->
       get_bit (bits_ f) j = true \/ In j (positions XXH64 f x)).
Proof.
  intros W. pose proof W as (Hm & Hk & HL).
  destruct (add_wf XXH64 f x W) as (f' & E & _).
  exists f'. split; [exact E |]. intros j Hj.
  rewrite add_refines in E by lia. fold (positions XXH64 f x) in E.
  destruct (set_all (bits_ f) (positions XXH64 f x)) as [b| |] eqn:S;
    simpl in E; try discriminate.
  injection E as <-. simpl. rewrite (set_all_get_bit _ _ _ j S).
  rewrite orb_true_iff, andb_true_iff, bool_decide_eq_true.
  rewrite hits_In by (try apply positions_nonneg; lia).
  split; intros [B | B]; auto.
  - right. tauto.
  - right. split; [exact B |].
    pose proof (positions_range XXH64 f x Hm) as R.
    rewrite Forall_forall in R. specialize (R j ltac:(now apply list_elem_of_In)).
    eapply block_in_range; eauto.
Qed.

(** X1.  [add] on a well-formed filter returns a filter in which a bit is
    set exactly when it was set before or it is one of the positions
    probed for the item: no other bit changes. *)
Theorem add_sets_exactly_the_positions (XXH64 : list byte -> Z -> Z)
    (f : BloomFilter) (x : list byte) :
  wf f ->
  exists f', add XXH64 f x = Ok f' /\
    forall j, 0 <= j ->
      (get_bit (bits_ f') j = true <->
       get_bit (bits_ f) j = true \/ In j (positions XXH64 f x)).
Proof. exact (add_get_bit_iff XXH64 f x). Qed.

Lemma add_sets_exactly_the_positions_witness :
  wf (mkBloomFilter [0] 10 3) /\
  exists f', add sample_hash (mkBloomFilter [0] 10 3) ["a"%byte] = Ok f' /\
    forall j, 0 <= j ->
      (get_bit (bits_ f') j = true <->
       get_bit [0] j = true \/ In j [6; 4; 2]).
Proof.
  assert (W : wf (mkBloomFilter [0] 10 3)).
  { unfold wf. simpl. repeat split; (lia || reflexivity). }
  split; [exact W |].
  exact (add_sets_exactly_the_positions sample_hash (mkBloomFilter [0] 10 3)
           ["a"%byte] W).
Defined.

(** ** What [might_contain] answers *)

Lemma test_bit_get_bit (bits : list Z) (j : Z) :
  (Z.to_nat (j / 64) < length bits)%nat -> test_bit bits j = Ok (get_bit bits j).
Proof.
  intros R. destruct (lookup_lt_is_Some_2 bits _ R) as [w L].
  rewrite (test_bit_lookup _ _ _ L). unfold get_bit. now rewrite L.
Qed.

Lemma test_all_false (bits idxs : list Z) :
  Forall (fun j => (Z.to_nat (j / 64) < length bits)%nat) idxs ->
  (test_all bits idxs = Ok false <-> Exists (fun j => get_bit bits j = false) idxs).
Proof.
  induction 1 as [|j rest Rj _ IH]; simpl.
  - split; [discriminate | intros E; inversion E].
  - rewrite (test_bit_get_bit _ _ Rj). simpl.
    destruct (get_bit bits j) eqn:B.
    + rewrite IH. split; [now right |].
      intros E. inversion E as [? ? Hj | ? ? Hr]; subst; [congruence | exact Hr].
    + split; [intros _; now left | reflexivity].
Qed.

Lemma might_contain_true_iff (XXH64 : list byte -> Z -> Z) (f : BloomFilter)
    (x : list byte) :
  num_bits_ f <> 0 ->
  (might_contain XXH64 f x = Ok true <->
   forall j, In j (positions XXH64 f x) -> get_bit (bits_ f) j = true).
Proof.
  intros Hm. rewrite might_contain_refines by exact Hm.
  fold (positions XXH64 f x). rewrite test_all_true, Forall_forall.
  split; intros H j Hj.
  - apply get_bit_true, H. now apply list_elem_of_In.
  - apply get_bit_true, H. now apply list_elem_of_In.
Qed.

(** X2.  On a well-formed filter [might_contain] returns [true] exactly
    when every probed position is set, and [false] exactly when some
    probed position is unset. *)
Theorem might_contain_answers (XXH64 : list byte -> Z -> Z) (f : BloomFilter)
    (x : list byte) :
  wf f ->
  (might_contain XXH64 f x = Ok true <->
   forall j, In j (positions XXH64 f x) -> get_bit (bits_ f) j = true) /\
  (might_contain XXH64 f x = Ok false <->
   exists j, In j (positions XXH64 f x) /\ get_bit (bits_ f) j = false).
Proof.
  intros (Hm & Hk & HL). split; [apply might_contain_true_iff; lia |].
  rewrite might_contain_refines by lia. fold (positions XXH64 f x).
  rewrite test_all_false by (now apply canonical_indices_blocks).
  rewrite Exists_exists. split; intros (j & Hj & B); exists j;
    (split; [now apply list_elem_of_In | exact B]).
Qed.

Lemma might_contain_answers_witness :
  wf (mkBloomFilter [84] 10 3) /\
  (might_contain sample_hash (mkBloomFilter [84] 10 3) ["a"%byte] = Ok true <->
   forall j, In j [6; 4; 2] -> get_bit [84] j = true) /\
  (might_contain sample_hash (mkBloomFilter [84] 10 3) ["a"%byte] = Ok false <->
   exists j, In j [6; 4; 2] /\ get_bit [84] j = false).
Proof.
  assert (W : wf (mkBloomFilter [84] 10 3)).
  { unfold wf. simpl. repeat split; (lia || reflexivity). }
  split; [exact W |].
  exact (might_contain_answers sample_hash (mkBloomFilter [84] 10 3)
           ["a"%byte] W).
Defined.

(** X3.  After any sequence of [add] calls on a well-formed filter, every
    item of the sequence is reported, wherever it occurs in the sequence;
    so an item for which [might_contain] returns [false] was not added. *)
Theorem added_items_are_found (XXH64 : list byte -> Z -> Z)
    (ys : list (list byte)) (f : BloomFilter) :
  wf f ->
  exists f', add_all XXH64 f ys = Ok f' /\
    (forall x, In x ys -> might_contain XXH64 f' x = Ok true) /\
    (forall x, might_contain XXH64 f' x = Ok false -> ~ In x ys).
Proof.
  intros W.
  assert (A : exists f', add_all XXH64 f ys = Ok f' /\
                forall x, In x ys -> might_contain XXH64 f' x = Ok true).
  { revert f W. induction ys as [|y rest IH]; intros f W; simpl.
    - exists f. split; [reflexivity | intros x []].
    - destruct (add_wf XXH64 f y W) as (f1 & E1 & W1 & _ & _ & _ & T1).
      rewrite E1. simpl.
      destruct (IH f1 W1) as (f2 & E2 & All). exists f2. split; [exact E2 |].
      intros x [<- | Hx]; [| now apply All].
      destruct (add_all_wf XXH64 rest f1 W1) as (f2' & E2' & _ & M & K & Le).
      replace f2' with f2 in * by congruence.
      now apply (might_contain_mono XXH64 f1 f2 y M K Le). }
  destruct A as (f' & E & All). exists f'. split; [exact E |]. split; [exact All |].
  intros x F Hx. rewrite (All x Hx) in F. discriminate.
Qed.

Lemma added_items_are_found_witness :
  wf (mkBloomFilter [0] 10 3) /\
  exists f', add_all sample_hash (mkBloomFilter [0] 10 3)
               [["a"%byte]; ["b"%byte]] = Ok f' /\
    (forall x, In x [["a"%byte]; ["b"%byte]] ->
       might_contain sample_hash f' x = Ok true) /\
    (forall x, might_contain sample_hash f' x = Ok false ->
       ~ In x [["a"%byte]; ["b"%byte]]).
Proof.
  assert (W : wf (mkBloomFilter [0] 10 3)).
  { unfold wf. simpl. repeat split; (lia || reflexivity). }
  split; [exact W |].
  exact (added_items_are_found sample_hash [["a"%byte]; ["b"%byte]]
           (mkBloomFilter [0] 10 3) W).
Defined.

(** X4.  A saturated filter answers [true] to every query: when all
    [num_bits] bits are set, [might_contain] returns [true] for every byte
    sequence. *)
Theorem saturated_filter_reports_everything (XXH64 : list byte -> Z -> Z)
    (f : BloomFilter) (y : list byte) :
  wf f ->
  (forall j, 0 <= j < num_bits_ f -> get_bit (bits_ f) j = true) ->
  might_contain XXH64 f y = Ok true.
Proof.
  intros (Hm & Hk & HL) Sat. apply might_contain_true_iff; [lia |].
  intros j Hj. apply Sat.
  pose proof (positions_range XXH64 f y Hm) as R. rewrite Forall_forall in R.
  apply R. now apply list_elem_of_In.
Qed.

Lemma saturated_filter_reports_everything_witness :
  wf (mkBloomFilter [1023] 10 3) /\
  (forall j, 0 <= j < 10 -> get_bit [1023] j = true) /\
  might_contain sample_hash (mkBloomFilter [1023] 10 3) ["z"%byte] = Ok true.
Proof.
  assert (W : wf (mkBloomFilter [1023] 10 3)).
  { unfold wf. simpl. repeat split; (lia || reflexivity). }
  assert (S : forall j, 0 <= j < num_bits_ (mkBloomFilter [1023] 10 3) ->
                get_bit (bits_ (mkBloomFilter [1023] 10 3)) j = true).
  { simpl. intros j Hj.
    assert (C : j = 0 \/ j = 1 \/ j = 2 \/ j = 3 \/ j = 4 \/ j = 5 \/ j = 6
                \/ j = 7 \/ j = 8 \/ j = 9) by lia.
    repeat (destruct C as [-> | C]; [reflexivity |]). now subst j. }
  split; [exact W |]. split; [exact S |].
  exact (saturated_filter_reports_everything sample_hash
           (mkBloomFilter [1023] 10 3) ["z"%byte] W S).
Defined.

Lemma canonical_indices_one (h1 h2 : Z) (k : nat) :
  canonical_indices h1 h2 1 k = repeat 0 k.
Proof.
  unfold canonical_indices, canonical_indices_from. generalize 0%nat.
  induction k as [|k IH]; intros s; simpl; [reflexivity |].
  rewrite IH. unfold canonical_index. now rewrite Z.mod_1_r.
Qed.

(** X5.  The one-bit filter: with [num_bits = 1], after a single [add] of
    any item, [might_contain] returns [true] for every byte sequence. *)
Theorem one_bit_filter_saturates (XXH64 : list byte -> Z -> Z)
    (f : BloomFilter) (x y : list byte) :
  wf f -> num_bits_ f = 1 ->
  exists f', add XXH64 f x = Ok f' /\ might_contain XXH64 f' y = Ok true.
Proof.
  intros W M1.
  destruct (add_wf XXH64 f x W) as (f' & E & W' & M & K & _ & T).
  exists f'. split; [exact E |].
  rewrite might_contain_refines in * by lia.
  rewrite M, M1 in *. now rewrite canonical_indices_one in *.
Qed.

Lemma one_bit_filter_saturates_witness :
  wf (mkBloomFilter [0] 1 1) /\ 1 = 1 /\
  exists f', add sample_hash (mkBloomFilter [0] 1 1) ["a"%byte] = Ok f' /\
    might_contain sample_hash f' ["b"%byte] = Ok true.
Proof.
  assert (W : wf (mkBloomFilter [0] 1 1)).
  { unfold wf. simpl. repeat split; (lia || reflexivity). }
  split; [exact W |]. split; [reflexivity |].
  exact (one_bit_filter_saturates sample_hash (mkBloomFilter [0] 1 1)
           ["a"%byte] ["b"%byte] W eq_refl).
Defined.

(** ** Sequences of [add] *)

Lemma add_all_get_bit (XXH64 : list byte -> Z -> Z) (ys : list (list byte)) :
  forall f : BloomFilter, wf f ->
  exists f', add_all XXH64 f ys = Ok f' /\ wf f' /\
    num_bits_ f' = num_bits_ f /\ num_hashes_ f' = num_hashes_ f /\
    forall j, 0 <= j ->
      (get_bit (bits_ f') j = true <->
       get_bit (bits_ f) j = true \/
       exists y, In y ys /\ In j (positions XXH64 f y)).
Proof.
  induction ys as [|y rest IH]; intros f W; simpl.
  - exists f. split; [reflexivity |]. split; [exact W |].
    split; [reflexivity |]. split; [reflexivity |]. intros j Hj.
    split; [auto | intros [B | (y & Hy & _)]; [exact B | destruct Hy]].
  - destruct (add_wf XXH64 f y W) as (f1 & E1 & W1 & M1 & K1 & _).
    destruct (add_get_bit_iff XXH64 f y W) as (f1' & E1' & B1).
    replace f1' with f1 in * by congruence. clear E1'.
    rewrite E1. simpl.
    destruct (IH f1 W1) as (f2 & E2 & W2 & M2 & K2 & B2).
    exists f2. split; [exact E2 |]. split; [exact W2 |].
    split; [congruence |]. split; [congruence |].
    intros j Hj. rewrite (B2 j Hj), (B1 j Hj).
    assert (P : forall z, positions XXH64 f1 z = positions XXH64 f z)
      by (intros z; unfold positions; now rewrite M1, K1).
    split.
    + intros [[B | I] | (z & Hz & I)]; auto.
      * right. exists y. auto.
      * right. exists z. rewrite P in I. auto.
    + intros [B | (z & [<- | Hz] & I)]; auto.
      right. exists z. rewrite P. auto.
Qed.

(** X6.  What a filter answers after a sequence of [add] calls: started
    from a well-formed filter, [might_contain x] returns [true] exactly
    when each position probed for [x] was set at the start or is probed
    for one of the added items.  A false positive is a query whose
    positions are all covered in this way. *)
Theorem query_after_adds (XXH64 : list byte -> Z -> Z)
    (ys : list (list byte)) (f : BloomFilter) :
  wf f ->
  exists f', add_all XXH64 f ys = Ok f' /\
    forall x,
      (might_contain XXH64 f' x = Ok true <->
       forall j, In j (positions XXH64 f x) ->
         get_bit (bits_ f) j = true \/
         exists y, In y ys /\ In j (positions XXH64 f y)).
Proof.
  intros W. destruct (add_all_get_bit XXH64 ys f W) as (f' & E & W' & M & K & B).
  exists f'. split; [exact E |]. intros x.
  pose proof W as (Hm & _). pose proof W' as (Hm' & _).
  rewrite might_contain_true_iff by lia.
  assert (P : positions XXH64 f' x = positions XXH64 f x)
    by (unfold positions; now rewrite M, K).
  rewrite P.
  pose proof (positions_nonneg XXH64 f x Hm) as N. rewrite Forall_forall in N.
  split; intros H j Hj; specialize (H j Hj);
    apply (B j (N j ltac:(now apply list_elem_of_In))); exact H.
Qed.

Lemma query_after_adds_witness :
  wf (mkBloomFilter [0] 10 3) /\
  exists f', add_all sample_hash (mkBloomFilter [0] 10 3) [["a"%byte]] = Ok f' /\
    forall x,
      (might_contain sample_hash f' x = Ok true <->
       forall j, In j (positions sample_hash (mkBloomFilter [0] 10 3) x) ->
         get_bit [0] j = true \/
         exists y, In y [["a"%byte]] /\
                   In j (positions sample_hash (mkBloomFilter [0] 10 3) y)).
Proof.
  assert (W : wf (mkBloomFilter [0] 10 3)).
  { unfold wf. simpl. repeat split; (lia || reflexivity). }
  split; [exact W |].
  exact (query_after_adds sample_hash [["a"%byte]] (mkBloomFilter [0] 10 3) W).
Defined.

Lemma add_all_words (XXH64 : list byte -> Z -> Z) (ys : list (list byte)) :
  forall (f f' : BloomFilter) (n : nat) (w : Z),
  wf f -> add_all XXH64 f ys = Ok f' -> bits_ f !! n = Some w ->
  exists w', bits_ f' !! n = Some w' /\
    forall p, Z.testbit w' p
              = Z.testbit w p || existsb (fun y => hits (positions XXH64 f y) n p) ys.
Proof.
  induction ys as [|y rest IH]; intros f f' n w W E L; simpl in E.
  - injection E as <-. exists w. split; [exact L |].
    intros p. simpl. now rewrite orb_false_r.
  - destruct (add_wf XXH64 f y W) as (f1 & E1 & W1 & M1 & K1 & _).
    rewrite E1 in E. simpl in E.
    pose proof W as (Hm & _).
    rewrite add_refines in E1 by lia. fold (positions XXH64 f y) in E1.
    destruct (set_all (bits_ f) (positions XXH64 f y)) as [b| |] eqn:S;
      simpl in E1; try discriminate.
    destruct (set_all_words _ _ _ n w S L) as (w1 & L1 & B1).
    injection E1 as <-.
    destruct (IH _ _ n w1 W1 E L1) as (w' & L' & B'). exists w'.
    split; [exact L' |]. intros p. rewrite B', B1. simpl.
    now rewrite orb_assoc.
Qed.

Lemma existsb_same_elements {A : Type} (g : A -> bool) (l1 l2 : list A) :
  (forall a, In a l1 <-> In a l2) -> existsb g l1 = existsb g l2.
Proof.
  intros H. apply eq_iff_eq_true. rewrite !existsb_exists.
  split; intros (a & Ha & G); exists a; (split; [now apply H | exact G]).
Qed.

(** X7.  The state after a sequence of [add] calls depends only on the set
    of items added: two sequences with the same items, in any order and
    with any repetitions, leave a well-formed filter in the same state,
    word for word. *)
Theorem add_all_same_items (XXH64 : list byte -> Z -> Z) (f : BloomFilter)
    (ys zs : list (list byte)) :
  wf f ->
  (forall y, In y ys <-> In y zs) ->
  add_all XXH64 f ys = add_all XXH64 f zs /\
  exists f', add_all XXH64 f ys = Ok f'.
Proof.
  intros W Same.
  destruct (add_all_wf XXH64 ys f W) as (f1 & E1 & _ & M1 & K1 & [Len1 _]).
  destruct (add_all_wf XXH64 zs f W) as (f2 & E2 & _ & M2 & K2 & [Len2 _]).
  split; [| now exists f1]. rewrite E1, E2. f_equal.
  assert (B : bits_ f1 = bits_ f2).
  { apply list_eq. intros n.
    destruct (bits_ f !! n) as [w|] eqn:L.
    - destruct (add_all_words XXH64 ys f f1 n w W E1 L) as (w1 & L1 & B1).
      destruct (add_all_words XXH64 zs f f2 n w W E2 L) as (w2 & L2 & B2).
      rewrite L1, L2. f_equal. apply Z.bits_inj. intros p.
      rewrite B1, B2. f_equal. now apply existsb_same_elements.
    - apply lookup_ge_None in L.
      rewrite !lookup_ge_None_2 by lia. reflexivity. }
  destruct f1, f2. simpl in *. congruence.
Qed.

Lemma add_all_same_items_witness :
  wf (mkBloomFilter [0] 10 3) /\
  (forall y, In y [["a"%byte]; ["b"%byte]; ["a"%byte]]
             <-> In y [["b"%byte]; ["a"%byte]]) /\
  add_all sample_hash (mkBloomFilter [0] 10 3)
    [["a"%byte]; ["b"%byte]; ["a"%byte]]
  = add_all sample_hash (mkBloomFilter [0] 10 3) [["b"%byte]; ["a"%byte]] /\
  exists f', add_all sample_hash (mkBloomFilter [0] 10 3)
               [["a"%byte]; ["b"%byte]; ["a"%byte]] = Ok f'.
Proof.
  assert (W : wf (mkBloomFilter [0] 10 3)).
  { unfold wf. simpl. repeat split; (lia || reflexivity). }
  assert (S : forall y, In y [["a"%byte]; ["b"%byte]; ["a"%byte]]
                        <-> In y [["b"%byte]; ["a"%byte]]).
  { intros y. simpl. tauto. }
  split; [exact W |]. split; [exact S |].
  exact (add_all_same_items sample_hash (mkBloomFilter [0] 10 3)
           [["a"%byte]; ["b"%byte]; ["a"%byte]] [["b"%byte]; ["a"%byte]] W S).
Defined.

(** ** Invariants of the exported words *)

Lemma lor_bit_u64 (w o : Z) :
  is_u64 w -> 0 <= o < 64 -> is_u64 (Z.lor w (2 ^ o)).
Proof.
  unfold is_u64. intros [W0 W1] Ho.
  assert (P : 0 < 2 ^ o) by (apply Z.pow_pos_nonneg; lia).
  assert (N : 0 <= Z.lor w (2 ^ o)) by (apply Z.lor_nonneg; lia).
  split; [exact N |].
  destruct (Z.eq_dec (Z.lor w (2 ^ o)) 0) as [-> | NZ]; [lia |].
  apply Z.log2_lt_pow2; [lia |].
  rewrite Z.log2_lor by lia. rewrite Z.log2_pow2 by lia.
  destruct (Z.eq_dec w 0) as [-> | WZ]; [simpl; lia |].
  assert (Z.log2 w < 64) by (apply Z.log2_lt_pow2; lia).
  lia.
Qed.

Lemma set_all_u64 (idxs : list Z) : forall bits bits' : list Z,
  Forall is_u64 bits -> set_all bits idxs = Ok bits' -> Forall is_u64 bits'.
Proof.
  induction idxs as [|j rest IH]; intros bits bits' F E; simpl in E.
  - now injection E as <-.
  - destruct (set_bit bits j) as [b1| |] eqn:E1; simpl in E; try discriminate.
    apply (IH b1 bits'); [| exact E].
    unfold set_bit, vec_or in E1.
    destruct (bits !! Z.to_nat (j / 64)) as [w|] eqn:L; [| discriminate].
    injection E1 as <-. apply Forall_insert; [exact F |].
    pose proof (Z.mod_pos_bound j 64 ltac:(lia)) as Ho.
    rewrite u64_bit by exact Ho. apply lor_bit_u64; [| exact Ho].
    rewrite Forall_forall in F. apply F. eapply list_elem_of_lookup_2; eauto.
Qed.

Lemma add_u64 (XXH64 : list byte -> Z -> Z) (f f' : BloomFilter) (x : list byte) :
  Forall is_u64 (bits_ f) -> add XXH64 f x = Ok f' -> Forall is_u64 (bits_ f').
Proof.
  intros F E. unfold add in E.
  destruct (num_bits_ f =? 0); [now injection E as <- |].
  change 0 with (Z.of_nat 0) in E at 1. rewrite add_loop_refines in E.
  destruct (set_all _ _) as [b| |] eqn:S; simpl in E; try discriminate.
  injection E as <-. simpl. eapply set_all_u64; eauto.
Qed.

(** X8.  Every word of a filter object is a 64-bit value, in every state:
    the words exported for persistence never need truncation. *)
Theorem exported_words_are_u64 (XXH64 : list byte -> Z -> Z)
    (std_log std_ceil : double -> double) (can_allocate : Z -> bool)
    (f : BloomFilter) :
  reachable XXH64 std_log std_ceil can_allocate f ->
  Forall is_u64 (get_raw_bits_vector f).
Proof.
  unfold get_raw_bits_vector.
  induction 1 as [n p f _ E | m k f _ _ E | m k ws f _ _ Hws E | f f' x _ IH E].
  - apply BloomFilter_optimal_ok in E as (_ & _ & ->).
    apply Forall_replicate. unfold is_u64. lia.
  - apply BloomFilter_explicit_ok in E as (_ & _ & ->). simpl.
    apply Forall_replicate. unfold is_u64. lia.
  - apply BloomFilter_restore_ok in E as [-> _]. exact Hws.
  - eapply add_u64; eauto.
Qed.

Lemma exported_words_are_u64_witness :
  reachable sample_hash identity_on_double identity_on_double always_allocates
    (mkBloomFilter [84] 10 3) /\
  Forall is_u64 [84].
Proof.
  assert (R : reachable sample_hash identity_on_double identity_on_double
                always_allocates (mkBloomFilter [84] 10 3)).
  { apply reach_add with (f := mkBloomFilter [0] 10 3) (x := ["a"%byte]).
    - apply reach_explicit with (m := 10) (k := 3);
        [unfold is_u64; lia | unfold is_u64; lia | reflexivity].
    - vm_compute. reflexivity. }
  split; [exact R |].
  exact (exported_words_are_u64 sample_hash identity_on_double
           identity_on_double always_allocates (mkBloomFilter [84] 10 3) R).
Defined.

Lemma built_reachable (XXH64 : list byte -> Z -> Z)
    (std_log std_ceil : double -> double) (can_allocate : Z -> bool)
    (f : BloomFilter) :
  built XXH64 std_log std_ceil can_allocate f ->
  reachable XXH64 std_log std_ceil can_allocate f.
Proof.
  induction 1 as [n p f Hn E | m k f Hm Hk E | f f' x _ IH E].
  - exact (reach_optimal _ _ _ _ n p f Hn E).
  - exact (reach_explicit _ _ _ _ m k f Hm Hk E).
  - exact (reach_add _ _ _ _ f f' x IH E).
Qed.

Lemma get_bit_zeros (n : nat) (j : Z) : get_bit (replicate n 0) j = false.
Proof.
  unfold get_bit.
  destruct (replicate n 0 !! Z.to_nat (j / 64)) as [w|] eqn:L; [| reflexivity].
  apply lookup_replicate in L as [-> _]. apply Z.testbit_0_l.
Qed.

(** X9.  A filter that was never restored has no stray bit: in every
    state reached from the optimal or the explicit constructor through
    [add], every bit at a position [>= num_bits] is clear, so the padding
    of the last word stays zero. *)
Theorem no_bit_beyond_num_bits (XXH64 : list byte -> Z -> Z)
    (std_log std_ceil : double -> double) (can_allocate : Z -> bool)
    (f : BloomFilter) :
  built XXH64 std_log std_ceil can_allocate f ->
  forall j, num_bits_ f <= j -> get_bit (bits_ f) j = false.
Proof.
  intros B. pose proof (built_reachable _ _ _ _ _ B) as R.
  induction B as [n p f _ E | m k f _ _ E | f f' x B IH E]; intros j Hj.
  - apply BloomFilter_optimal_ok in E as (_ & _ & ->). apply get_bit_zeros.
  - apply BloomFilter_explicit_ok in E as (_ & _ & ->). apply get_bit_zeros.
  - pose proof (built_reachable _ _ _ _ _ B) as Rf.
    destruct (reachable_sizes _ _ _ _ _ Rf) as [[Hm0 _] _].
    destruct (reachable_consistent _ _ _ _ _ Rf) as (Nm & _).
    specialize (IH Rf).
    rewrite add_refines in E by exact Nm. fold (positions XXH64 f x) in E.
    destruct (set_all (bits_ f) (positions XXH64 f x)) as [b| |] eqn:S;
      simpl in E; try discriminate.
    injection E as <-. simpl in *. rewrite (set_all_get_bit _ _ _ j S).
    rewrite (IH j Hj). simpl.
    destruct (hits (positions XXH64 f x) (Z.to_nat (j / 64)) (j mod 64)) eqn:H;
      [| reflexivity].
    exfalso. apply hits_In in H; [| apply positions_nonneg; lia | lia].
    pose proof (positions_range XXH64 f x ltac:(lia)) as Rg.
    rewrite Forall_forall in Rg. specialize (Rg j ltac:(now apply list_elem_of_In)).
    cbv beta in Rg. lia.
Qed.

Lemma no_bit_beyond_num_bits_witness :
  built sample_hash identity_on_double identity_on_double always_allocates
    (mkBloomFilter [84] 10 3) /\
  forall j, 10 <= j -> get_bit [84] j = false.
Proof.
  assert (B : built sample_hash identity_on_double identity_on_double
                always_allocates (mkBloomFilter [84] 10 3)).
  { apply built_add with (f := mkBloomFilter [0] 10 3) (x := ["a"%byte]).
    - apply built_explicit with (m := 10) (k := 3);
        [unfold is_u64; lia | unfold is_u64; lia | reflexivity].
    - vm_compute. reflexivity. }
  split; [exact B |].
  exact (no_bit_beyond_num_bits sample_hash identity_on_double
           identity_on_double always_allocates (mkBloomFilter [84] 10 3) B).
Defined.

(** ** What the constructors return *)

(** X10.  When the optimal constructor returns a filter, the count was not
    zero and both comparisons of the guard were false, the filter has
    between 1 and [2^64 - 1] bits and between 1 and 32 hashes, its word
    count is the block count of the source, and every bit is clear. *)
Theorem optimal_constructor_result (std_log std_ceil : double -> double)
    (can_allocate : Z -> bool) (n : Z) (p : double) (f : BloomFilter) :
  BloomFilter_optimal std_log std_ceil can_allocate n p = Ok f ->
  n <> 0 /\ d_le p d_zero = false /\ d_ge p d_one = false /\
  1 <= num_bits_ f < 2 ^ 64 /\ 1 <= num_hashes_ f <= 32 /\
  Z.of_nat (length (bits_ f)) = num_blocks_of (num_bits_ f) /\
  forall j, get_bit (bits_ f) j = false.
Proof.
  intros E. pose proof (BloomFilter_optimal_ok _ _ _ _ _ _ E) as (Hm & Hk & Eb).
  unfold BloomFilter_optimal in E.
  destruct (n =? 0) eqn:En; [discriminate |].
  destruct (d_le p d_zero); [discriminate |].
  destruct (d_ge p d_one); [discriminate |].
  apply Z.eqb_neq in En.
  repeat (split; [first [assumption | reflexivity | lia] |]).
  split.
  - rewrite Eb at 1. rewrite length_replicate.
    pose proof (num_blocks_of_nonneg (num_bits_ f)). lia.
  - intros j. rewrite Eb. apply get_bit_zeros.
Qed.

Lemma optimal_constructor_result_witness :
  BloomFilter_optimal sample_log d_ceil always_allocates 1000 d_0_01
    = Ok (mkBloomFilter (replicate 150 0) 9586 7) /\
  1 <= 9586 < 2 ^ 64 /\ 1 <= 7 <= 32 /\
  Z.of_nat (length (replicate 150 0)) = num_blocks_of 9586.
Proof.
  assert (E : BloomFilter_optimal sample_log d_ceil always_allocates 1000 d_0_01
              = Ok (mkBloomFilter (replicate 150 0) 9586 7))
    by (vm_compute; reflexivity).
  destruct (optimal_constructor_result sample_log d_ceil always_allocates
              1000 d_0_01 _ E) as (_ & _ & _ & Hm & Hk & HL & _).
  split; [exact E |]. split; [exact Hm |]. split; [exact Hk | exact HL].
Defined.

(** ** The enhanced recurrence in closed form *)

Lemma triangular_succ (i : Z) : triangular (i + 1) = triangular i + (i + 1).
Proof.
  unfold triangular.
  replace ((i + 1) * (i + 1 + 1)) with (i * (i + 1) + (i + 1) * 2) by ring.
  now rewrite Z.div_add by lia.
Qed.

Lemma triangular_double (n : nat) :
  2 * triangular (Z.of_nat n) = Z.of_nat n * (Z.of_nat n + 1).
Proof.
  induction n as [|n IH]; [reflexivity |].
  rewrite Nat2Z.inj_succ. unfold Z.succ. rewrite triangular_succ. lia.
Qed.

Lemma tetrahedral_succ (n : nat) :
  tetrahedral (Z.of_nat n + 1)
  = tetrahedral (Z.of_nat n) + triangular (Z.of_nat n).
Proof.
  unfold tetrahedral. pose proof (triangular_double n) as D.
  replace ((Z.of_nat n + 1 - 1) * (Z.of_nat n + 1) * (Z.of_nat n + 1 + 1))
    with ((Z.of_nat n - 1) * Z.of_nat n * (Z.of_nat n + 1)
          + triangular (Z.of_nat n) * 6) by lia.
  now rewrite Z.div_add by lia.
Qed.

Lemma enhanced_indices_from_closed (h1 h2 m : Z) (rem : nat) : forall i : nat,
  enhanced_indices_from m rem (Z.of_nat i)
    ((h1 + Z.of_nat i * h2 + tetrahedral (Z.of_nat i)) mod 2 ^ 64)
    ((h2 + triangular (Z.of_nat i) - Z.of_nat i) mod 2 ^ 64)
  = map (enhanced_index h1 h2 m) (seq i rem).
Proof.
  induction rem as [|rem IH]; intros i; [reflexivity |].
  simpl. f_equal. rewrite <- IH. rewrite Nat2Z.inj_succ. unfold Z.succ.
  repeat (rewrite Zplus_mod_idemp_l || rewrite Zplus_mod_idemp_r).
  rewrite tetrahedral_succ, triangular_succ.
  f_equal; f_equal; ring.
Qed.

Lemma enhanced_indices_closed (h1 h2 m : Z) (k : nat) :
  enhanced_indices h1 h2 m k = map (enhanced_index h1 h2 m) (seq 0 k).
Proof.
  unfold enhanced_indices. rewrite <- enhanced_indices_from_closed.
  change (Z.of_nat 0) with 0. change (tetrahedral 0) with 0.
  change (triangular 0) with 0. f_equal; f_equal; ring.
Qed.

Lemma land_bit (w o : Z) :
  0 <= o -> (Z.land w (2 ^ o) =? 0) = negb (Z.testbit w o).
Proof.
  intros Ho. destruct (Z.testbit w o) eqn:B; simpl.
  - apply Z.eqb_neq. intros Z0.
    assert (T : Z.testbit (Z.land w (2 ^ o)) o = true)
      by (rewrite Z.land_spec, B, Z.pow2_bits_true by lia; reflexivity).
    rewrite Z0, Z.testbit_0_l in T. discriminate.
  - apply Z.eqb_eq. apply Z.bits_inj. intros p.
    rewrite Z.land_spec, Z.testbit_0_l, Z.pow2_bits_eqb by lia.
    destruct (Z.eqb_spec o p) as [<- | _]; [now rewrite B | apply andb_false_r].
Qed.

Lemma enhanced_might_contain_loop_refines (m : Z) (rem : nat) :
  m <> 0 ->
  forall (i probe step : Z) (bits : list Z),
  Bloomfilter.might_contain_loop m rem i probe step bits
  = test_all bits (enhanced_indices_from m rem i probe step).
Proof.
  intros Hm. apply Z.eqb_neq in Hm.
  induction rem as [|rem IH]; intros i probe step bits; [reflexivity |].
  simpl. rewrite Hm, shiftr_6, land_63. unfold test_bit.
  destruct (vec_read bits (probe mod m / 64)) as [w| |]; simpl; try reflexivity.
  assert (Ho : 0 <= probe mod m mod 64 < 64) by (apply Z.mod_pos_bound; lia).
  rewrite u64_bit, land_bit, land_shiftr_1 by lia.
  destruct (Z.testbit w (probe mod m mod 64)); simpl; [apply IH | reflexivity].
Qed.

Lemma enhanced_might_contain_refines (XXH64 : list byte -> Z -> Z)
    (f : BloomFilter) (data : list byte) :
  num_bits_ f <> 0 ->
  Bloomfilter.might_contain XXH64 f data
  = test_all (bits_ f) (enhanced_positions XXH64 f data).
Proof.
  intros Hm. unfold Bloomfilter.might_contain.
  now rewrite enhanced_might_contain_loop_refines.
Qed.

Lemma enhanced_positions_range (XXH64 : list byte -> Z -> Z) (f : BloomFilter)
    (x : list byte) :
  1 <= num_bits_ f ->
  Forall (fun j => 0 <= j < num_bits_ f) (enhanced_positions XXH64 f x).
Proof.
  intros Hm. unfold enhanced_positions. rewrite enhanced_indices_closed.
  apply Forall_map, Forall_forall. intros i _. unfold enhanced_index.
  apply Z.mod_pos_bound. lia.
Qed.

(** X11.  The enhanced recurrence in closed form: with [num_bits >= 1],
    the positions that [add] sets and [might_contain] tests in
    src/src/bloomfilter/bloom_filter.cpp are, in order,
    [((h1 + i*h2 + (i-1)*i*(i+1)/6) mod 2^64) mod num_bits] for
    [i = 0 .. num_hashes-1], each below [num_bits]. *)
Theorem enhanced_closed_form (XXH64 : list byte -> Z -> Z) (f : BloomFilter)
    (data : list byte) :
  1 <= num_bits_ f ->
  let idxs := map (enhanced_index (XXH64 data SEED1) (XXH64 data SEED2)
                     (num_bits_ f)) (seq 0 (Z.to_nat (num_hashes_ f))) in
  Enhanced.add XXH64 f data =
    (do bits' <- set_all (bits_ f) idxs;
     Ok (mkBloomFilter bits' (num_bits_ f) (num_hashes_ f))) /\
  Bloomfilter.might_contain XXH64 f data = test_all (bits_ f) idxs /\
  Forall (fun j => 0 <= j < num_bits_ f) idxs.
Proof.
  intros Hm idxs. subst idxs. rewrite <- enhanced_indices_closed.
  split; [apply enhanced_add_refines; lia |].
  split; [apply enhanced_might_contain_refines; lia |].
  now apply enhanced_positions_range.
Qed.

Lemma enhanced_closed_form_witness :
  1 <= 10 /\
  Enhanced.add sample_hash (mkBloomFilter [0] 10 4) ["a"%byte]
  = (do bits' <- set_all [0]
                   (map (enhanced_index (sample_hash ["a"%byte] SEED1)
                           (sample_hash ["a"%byte] SEED2) 10) (seq 0 4));
     Ok (mkBloomFilter bits' 10 4)).
Proof.
  destruct (enhanced_closed_form sample_hash (mkBloomFilter [0] 10 4)
              ["a"%byte] ltac:(simpl; lia)) as (A & _ & _).
  split; [lia | exact A].
Defined.

(** ** The enhanced variant: no false negatives *)

Lemma enhanced_add_wf (XXH64 : list byte -> Z -> Z) (f : BloomFilter) (x : list byte) :
  wf f ->
  exists f', Enhanced.add XXH64 f x = Ok f' /\ wf f' /\
    num_bits_ f' = num_bits_ f /\ num_hashes_ f' = num_hashes_ f /\
    bits_le (bits_ f) (bits_ f') /\
    Bloomfilter.might_contain XXH64 f' x = Ok true.
Proof.
  intros (Hm & Hk & HL).
  rewrite enhanced_add_refines by lia. fold (enhanced_positions XXH64 f x).
  assert (R : Forall (fun j => (Z.to_nat (j / 64) < length (bits_ f))%nat)
                (enhanced_positions XXH64 f x)).
  { eapply Forall_impl; [now apply enhanced_positions_range |].
    intros j Hj. cbv beta in Hj. eapply block_in_range; eauto. }
  destruct (set_all_in_range _ _ R) as (b & E & Le & S).
  rewrite E. simpl. eexists. split; [reflexivity |].
  repeat split; simpl; try assumption; try apply Le.
  - destruct Le as [Len _]. now rewrite <- Len.
  - rewrite enhanced_might_contain_refines by (simpl; lia).
    now apply test_all_true.
Qed.

Lemma enhanced_might_contain_mono (XXH64 : list byte -> Z -> Z)
    (f f' : BloomFilter) (x : list byte) :
  num_bits_ f <> 0 ->
  num_bits_ f' = num_bits_ f -> num_hashes_ f' = num_hashes_ f ->
  bits_le (bits_ f) (bits_ f') ->
  Bloomfilter.might_contain XXH64 f x = Ok true ->
  Bloomfilter.might_contain XXH64 f' x = Ok true.
Proof.
  intros NZ Em Ek Le T.
  rewrite enhanced_might_contain_refines in * by congruence.
  unfold enhanced_positions in *. rewrite Em, Ek.
  apply test_all_true. apply test_all_true in T.
  eapply Forall_impl; [exact T |]. intros j. now apply bit_is_set_mono.
Qed.

Lemma enhanced_add_all_wf (XXH64 : list byte -> Z -> Z) (items : list (list byte)) :
  forall f : BloomFilter, wf f ->
  exists f', Bloomfilter.add_all XXH64 f items = Ok f' /\ wf f' /\
    num_bits_ f' = num_bits_ f /\ num_hashes_ f' = num_hashes_ f /\
    bits_le (bits_ f) (bits_ f').
Proof.
  induction items as [|y rest IH]; intros f W; simpl.
  - exists f. repeat split; try apply W. apply bits_le_refl.
  - destruct (enhanced_add_wf XXH64 f y W) as (f1 & E1 & W1 & M1 & K1 & Le1 & _).
    rewrite E1. simpl.
    destruct (IH f1 W1) as (f2 & E2 & W2 & M2 & K2 & Le2).
    exists f2. repeat split; try apply W2; try congruence.
    + apply (bits_le_trans _ _ _ Le1 Le2).
    + apply (bits_le_trans _ _ _ Le1 Le2).
Qed.

(** X12.  The enhanced variant has no false negatives either: on a
    well-formed filter its [add] returns, its [might_contain] then returns
    [true] for the item, and still does after any further sequence of its
    [add] calls. *)
Theorem enhanced_no_false_negatives (XXH64 : list byte -> Z -> Z)
    (f : BloomFilter) (x : list byte) (ys : list (list byte)) :
  wf f ->
  exists f1, Enhanced.add XXH64 f x = Ok f1 /\
    Bloomfilter.might_contain XXH64 f1 x = Ok true /\
    exists f2, Bloomfilter.add_all XXH64 f1 ys = Ok f2 /\
      Bloomfilter.might_contain XXH64 f2 x = Ok true.
Proof.
  intros W.
  destruct (enhanced_add_wf XXH64 f x W) as (f1 & E1 & W1 & _ & _ & _ & T1).
  exists f1. split; [exact E1 |]. split; [exact T1 |].
  destruct (enhanced_add_all_wf XXH64 ys f1 W1) as (f2 & E2 & _ & M2 & K2 & Le2).
  exists f2. split; [exact E2 |].
  destruct W1 as (Hm1 & _).
  apply (enhanced_might_contain_mono XXH64 f1 f2 x ltac:(lia) M2 K2 Le2 T1).
Qed.

Lemma enhanced_no_false_negatives_witness :
  wf (mkBloomFilter [0] 10 4) /\
  exists f1, Enhanced.add sample_hash (mkBloomFilter [0] 10 4) ["a"%byte] = Ok f1 /\
    Bloomfilter.might_contain sample_hash f1 ["a"%byte] = Ok true /\
    exists f2, Bloomfilter.add_all sample_hash f1 [["b"%byte]] = Ok f2 /\
      Bloomfilter.might_contain sample_hash f2 ["a"%byte] = Ok true.
Proof.
  assert (W : wf (mkBloomFilter [0] 10 4)).
  { unfold wf. simpl. repeat split; (lia || reflexivity). }
  split; [exact W |].
  exact (enhanced_no_false_negatives sample_hash (mkBloomFilter [0] 10 4)
           ["a"%byte] [["b"%byte]] W).
Defined.

(** ** Where the two variants agree *)

Lemma enhanced_indices_le2 (h1 h2 m : Z) (k : nat) :
  (k <= 2)%nat -> enhanced_indices h1 h2 m k = canonical_indices h1 h2 m k.
Proof.
  intros Hk. rewrite enhanced_indices_closed.
  unfold canonical_indices, canonical_indices_from.
  assert (E : forall i, (i < 2)%nat ->
                enhanced_index h1 h2 m i = canonical_index h1 h2 m i).
  { intros i Hi. unfold enhanced_index, canonical_index.
    destruct i as [|[|i]]; [| | lia];
      (replace (tetrahedral _) with 0 by reflexivity); now rewrite Z.add_0_r. }
  destruct k as [|[|[|k]]]; simpl; [| | | lia];
    rewrite ?(E 0%nat), ?(E 1%nat) by lia; reflexivity.
Qed.

(** X13.  With at most two hashes the two variants are the same filter:
    for [num_bits <> 0] and [num_hashes <= 2], the [add] of both files
    return the same state and the [might_contain] of both files return
    the same answer. *)
Theorem variants_agree_up_to_two_hashes (XXH64 : list byte -> Z -> Z)
    (f : BloomFilter) (data : list byte) :
  num_bits_ f <> 0 -> num_hashes_ f <= 2 ->
  Enhanced.add XXH64 f data = add XXH64 f data /\
  Bloomfilter.might_contain XXH64 f data = might_contain XXH64 f data.
Proof.
  intros Hm Hk.
  rewrite enhanced_add_refines, add_refines by exact Hm.
  rewrite enhanced_might_contain_refines, might_contain_refines by exact Hm.
  unfold enhanced_positions.
  rewrite enhanced_indices_le2 by lia. split; reflexivity.
Qed.

Lemma variants_agree_up_to_two_hashes_witness :
  10 <> 0 /\ 2 <= 2 /\
  Enhanced.add sample_hash (mkBloomFilter [0] 10 2) ["a"%byte]
  = add sample_hash (mkBloomFilter [0] 10 2) ["a"%byte] /\
  Bloomfilter.might_contain sample_hash (mkBloomFilter [0] 10 2) ["a"%byte]
  = might_contain sample_hash (mkBloomFilter [0] 10 2) ["a"%byte].
Proof.
  split; [lia |]. split; [lia |].
  apply (variants_agree_up_to_two_hashes sample_hash (mkBloomFilter [0] 10 2)
           ["a"%byte]); simpl; lia.
Defined.

(** X14.  The two restore constructors accept the same arguments and build
    the same filter; they differ in the exception only: the variant of
    src/src/bloomfilter throws [invalid_argument] whenever the other one
    throws, also where the other one throws [runtime_error] for a wrong
    word count. *)
Theorem restore_constructors_agree (m k : Z) (words : list Z) :
  (forall f, Bloomfilter.BloomFilter_restore m k words = Ok f <->
             BloomFilter_restore m k words = Ok f) /\
  (Bloomfilter.BloomFilter_restore m k words = Throw invalid_argument <->
   exists e, BloomFilter_restore m k words = Throw e) /\
  (BloomFilter_restore m k words = Throw runtime_error <->
   m <> 0 /\ k <> 0 /\ Z.of_nat (length words) <> num_blocks_of m).
Proof.
  unfold Bloomfilter.BloomFilter_restore, BloomFilter_restore. simpl.
  destruct (Z.eqb_spec m 0) as [Em | Em]; simpl;
    [| destruct (Z.eqb_spec k 0) as [Ek | Ek]; simpl;
       [| destruct (Z.eqb_spec (Z.of_nat (length words)) (num_blocks_of m))
            as [El | El]; simpl ] ].
  all: repeat split; intros; try discriminate; try tauto; eauto.
  all: match goal with H : exists _, _ |- _ => destruct H; discriminate end.
Qed.

(** ** The parameter computation of src/src/bloomfilter *)

Lemma size_t_of_double_range (x : double) (n : Z) :
  size_t_of_double x = Ok n -> 0 <= n < 2 ^ 64.
Proof.
  unfold size_t_of_double. destruct x as [s | s | | s m e]; try discriminate.
  - intros [= <-]. lia.
  - destruct (Z.shiftl (Z.pos m) e =? 0); [intros [= <-]; lia |].
    destruct s; [discriminate |].
    destruct (Z.shiftl (Z.pos m) e <=? SIZE_MAX) eqn:Le; [| discriminate].
    intros [= <-]. apply Z.leb_le in Le. unfold SIZE_MAX in Le.
    pose proof (Z.shiftl_nonneg (Z.pos m) e). lia.
Qed.

(** X15.  Whenever the parameter computation of src/src/bloomfilter
    returns, it leaves the words alone and has chosen between 1 and
    [2^64 - 1] bits and between 1 and 16 hashes (the other file allows up
    to 32); its only exception is [overflow_error]. *)
Theorem enhanced_params_range (std_log std_ceil : double -> double)
    (f : BloomFilter) (n : Z) (p : double) :
  (forall f', Bloomfilter.calculate_optimal_params std_log std_ceil f n p = Ok f' ->
     1 <= num_bits_ f' < 2 ^ 64 /\ 1 <= num_hashes_ f' <= 16 /\
     bits_ f' = bits_ f) /\
  (forall e, Bloomfilter.calculate_optimal_params std_log std_ceil f n p = Throw e ->
     e = overflow_error).
Proof.
  unfold Bloomfilter.calculate_optimal_params.
  destruct (d_gt _ _); [split; [discriminate | congruence] |].
  destruct (size_t_of_double (std_ceil _)) as [m| e0 |] eqn:Em; simpl.
  - destruct (size_t_of_double (std_ceil _)) as [k| e1 |] eqn:Ek in |- *; simpl.
    + split; [| discriminate]. intros f' [= <-]. simpl.
      apply size_t_of_double_range in Em.
      split; [lia |]. split; [| reflexivity].
      unfold Bloomfilter.clamp.
      destruct (Z.ltb_spec k 1); [lia |].
      destruct (Z.ltb_spec 16 k); lia.
    + exfalso. unfold size_t_of_double in Ek.
      repeat match type of Ek with
             | context [match ?c with _ => _ end] => destruct c
             end; discriminate.
    + split; discriminate.
  - exfalso. unfold size_t_of_double in Em.
    repeat match type of Em with
           | context [match ?c with _ => _ end] => destruct c
           end; discriminate.
  - split; discriminate.
Qed.

Lemma enhanced_params_range_witness :
  Bloomfilter.calculate_optimal_params sample_log d_ceil uninitialized 1000 d_0_01
    = Ok (mkBloomFilter [] 9586 7) /\
  1 <= 9586 < 2 ^ 64 /\ 1 <= 7 <= 16.
Proof.
  assert (E : Bloomfilter.calculate_optimal_params sample_log d_ceil
                uninitialized 1000 d_0_01 = Ok (mkBloomFilter [] 9586 7))
    by (vm_compute; reflexivity).
  destruct (enhanced_params_range sample_log d_ceil uninitialized 1000 d_0_01)
    as [R _].
  destruct (R _ E) as (Hm & Hk & _).
  split; [exact E |]. split; [exact Hm | exact Hk].
Defined.

(** ** The claims revisited on every state of a filter object *)

(** C1, at the failing input.  The explicit constructor called with
    [num_bits = 2^64 - 1] and [num_hashes = 1] returns a filter whose two
    parameters are at least 1 and which has no words (the block count
    wraps to 0, whatever the allocator does).  On this filter [add]
    writes outside the vector for every byte sequence: it does not
    return, so no [might_contain] returns [true] after it. *)
Theorem add_on_filter_without_words (can_allocate : Z -> bool) :
  BloomFilter_explicit can_allocate (2 ^ 64 - 1) 1
    = Ok (mkBloomFilter [] (2 ^ 64 - 1) 1) /\
  1 <= num_bits_ (mkBloomFilter [] (2 ^ 64 - 1) 1) /\
  1 <= num_hashes_ (mkBloomFilter [] (2 ^ 64 - 1) 1) /\
  ~ wf (mkBloomFilter [] (2 ^ 64 - 1) 1) /\
  forall (XXH64 : list byte -> Z -> Z) (x : list byte),
    add XXH64 (mkBloomFilter [] (2 ^ 64 - 1) 1) x = Undefined /\
    ~ (exists f1, add XXH64 (mkBloomFilter [] (2 ^ 64 - 1) 1) x = Ok f1 /\
                  might_contain XXH64 f1 x = Ok true).
Proof.
  split; [reflexivity |]. split; [simpl; lia |]. split; [simpl; lia |].
  split.
  - intros (_ & _ & L). simpl in L. discriminate.
  - intros XXH64 x. rewrite empty_store_add by lia.
    split; [reflexivity |]. intros (f1 & E & _). discriminate.
Qed.

Lemma set_all_bits_le (idxs bits bits' : list Z) :
  set_all bits idxs = Ok bits' -> bits_le bits bits'.
Proof.
  intros E. split; [symmetry; eapply set_all_length; eauto |].
  intros n w L. destruct (set_all_words _ _ _ n w E L) as (w' & L' & B).
  exists w'. split; [exact L' |]. intros p T. rewrite B, T. reflexivity.
Qed.

(** Whenever [add] returns, in any state at all: the counters are the
    same, the number of words is the same, and every bit that was set is
    still set. *)
Lemma add_bits_le (XXH64 : list byte -> Z -> Z) (f f' : BloomFilter) (y : list byte) :
  add XXH64 f y = Ok f' ->
  bits_le (bits_ f) (bits_ f') /\
  num_bits_ f' = num_bits_ f /\ num_hashes_ f' = num_hashes_ f.
Proof.
  intros E. unfold add in E.
  destruct (num_bits_ f =? 0).
  - injection E as <-. split; [apply bits_le_refl | auto].
  - change 0 with (Z.of_nat 0) in E at 1. rewrite add_loop_refines in E.
    destruct (set_all _ _) as [b| |] eqn:S; simpl in E; try discriminate.
    injection E as <-. simpl. split; [| auto].
    eapply set_all_bits_le; eauto.
Qed.

(** C3 (monotonicity).  For every filter state and every further [add]
    call that returns: the state it returns has the same [num_bits] and
    [num_hashes] and the same number of words, every bit that was 1 is
    still 1 (bits only go from 0 to 1), and every byte sequence for which
    [might_contain] returned [true] before still gets [true].  And in
    every state of a filter object (built by a constructor, mutated by
    [add]) in which [might_contain x] returns [true], every further [add]
    does return, with [might_contain x] still [true]. *)
Theorem add_monotone (XXH64 : list byte -> Z -> Z)
    (std_log std_ceil : double -> double) (can_allocate : Z -> bool)
    (f : BloomFilter) :
  (forall (y : list byte) (f' : BloomFilter),
     add XXH64 f y = Ok f' ->
     bits_le (bits_ f) (bits_ f') /\
     num_bits_ f' = num_bits_ f /\
     num_hashes_ f' = num_hashes_ f /\
     forall x, might_contain XXH64 f x = Ok true ->
               might_contain XXH64 f' x = Ok true) /\
  (reachable XXH64 std_log std_ceil can_allocate f ->
   forall x y : list byte,
     might_contain XXH64 f x = Ok true ->
     exists f', add XXH64 f y = Ok f' /\
       might_contain XXH64 f' x = Ok true /\
       bits_le (bits_ f) (bits_ f') /\
       num_bits_ f' = num_bits_ f /\
       num_hashes_ f' = num_hashes_ f).
Proof.
  split.
  - intros y f' E. destruct (add_bits_le XXH64 f f' y E) as (Le & M & K).
    repeat (split; [assumption |]).
    intros x T. now apply (might_contain_mono XXH64 f f' x M K Le).
  - intros R x y T. apply add_monotone_wf; [| exact T].
    exact (reachable_true_wf _ _ _ _ _ _ R T).
Qed.

Lemma add_monotone_witness :
  reachable sample_hash identity_on_double identity_on_double always_allocates
    (mkBloomFilter [0] 10 3) /\
  add sample_hash (mkBloomFilter [0] 10 3) ["a"%byte]
    = Ok (mkBloomFilter [84] 10 3) /\
  bits_le [0] [84] /\
  might_contain sample_hash (mkBloomFilter [84] 10 3) ["a"%byte] = Ok true /\
  exists f', add sample_hash (mkBloomFilter [84] 10 3) ["b"%byte] = Ok f' /\
    might_contain sample_hash f' ["a"%byte] = Ok true /\
    bits_le [84] (bits_ f') /\
    num_bits_ f' = 10 /\
    num_hashes_ f' = 3.
Proof.
  assert (R0 : reachable sample_hash identity_on_double identity_on_double
                 always_allocates (mkBloomFilter [0] 10 3)).
  { apply reach_explicit with (m := 10) (k := 3);
      [unfold is_u64; lia | unfold is_u64; lia | reflexivity]. }
  assert (E : add sample_hash (mkBloomFilter [0] 10 3) ["a"%byte]
              = Ok (mkBloomFilter [84] 10 3)) by (vm_compute; reflexivity).
  assert (R1 : reachable sample_hash identity_on_double identity_on_double
                 always_allocates (mkBloomFilter [84] 10 3))
    by exact (reach_add _ _ _ _ _ _ _ R0 E).
  assert (T : might_contain sample_hash (mkBloomFilter [84] 10 3) ["a"%byte]
              = Ok true) by (vm_compute; reflexivity).
  destruct (add_monotone sample_hash identity_on_double identity_on_double
              always_allocates (mkBloomFilter [0] 10 3)) as [A0 _].
  destruct (A0 _ _ E) as (Le & _).
  destruct (add_monotone sample_hash identity_on_double identity_on_double
              always_allocates (mkBloomFilter [84] 10 3)) as [_ A1].
  split; [exact R0 |]. split; [exact E |]. split; [exact Le |].
  split; [exact T |].
  exact (A1 R1 ["a"%byte] ["b"%byte] T).
Defined.

(** ** The parameter computation at the limit of [size_t] *)




(** The same run of the parameter computation and of the constructor with
    the logarithm of the table: the instance of the specification.  For
    1000 items at rate 0.01 the result is 9586 bits and 7 hashes. *)
Lemma BloomFilter_optimal_1000 :
  BloomFilter_optimal table_log d_ceil always_allocates 1000 d_0_01
  = Ok (mkBloomFilter (replicate 150 0) 9586 7).
Proof. vm_compute. reflexivity. Qed.
